(** * Shallow embedding of [search_algorithm.py] (duckie command search)

    Strings are ASCII strings; Python [float] arithmetic is modelled by the
    real numbers of the Standard Library.  The external collaborators
    ([SpellChecker.correction], [rapidfuzz.fuzz.WRatio] and the random draw of
    [np.random.randn] used by [MicroLanguageModel.__init__]) are Section
    variables, so every theorem holds for every behaviour of them.

    Python sets ([set(...)]) are modelled as duplicate-free lists; where the
    code iterates a set ([list(set(...))] in [_tokenize] and [build_index], the
    [candidate_indices] loop in [search]) the iteration order is the order of
    first insertion for strings and ascending order for the small integer
    positions (CPython iterates small non-negative ints in ascending slot
    order). *)

From Stdlib Require Import String Ascii List Bool Arith Lia.
From Stdlib Require Import Reals Lra Psatz.
From Stdlib Require Import Sorted Permutation ZArith.
Import ListNotations.
Open Scope string_scope.
Open Scope nat_scope.

(* ------------------------------------------------------------------ *)
(** ** Python string primitives *)

Module PyStr.

(** Characters for which [str.isspace] holds in the ASCII range; [str.split()]
    and [str.strip()] without arguments use exactly these. *)
Definition is_space (c : ascii) : bool :=
  let n := nat_of_ascii c in
  ((9 <=? n) && (n <=? 13)) || ((28 <=? n) && (n <=? 32)).

Fixpoint to_list (s : string) : list ascii :=
  match s with
  | EmptyString => []
  | String c r => c :: to_list r
  end.

Fixpoint of_list (l : list ascii) : string :=
  match l with
  | [] => EmptyString
  | c :: r => String c (of_list r)
  end.

(** [str.split()] : split on runs of whitespace, no empty pieces. *)
Fixpoint split_go (l : list ascii) (cur : list ascii) : list (list ascii) :=
  match l with
  | [] => match cur with [] => [] | _ => [rev cur] end
  | c :: r =>
      if is_space c
      then match cur with
           | [] => split_go r []
           | _ => rev cur :: split_go r []
           end
      else split_go r (c :: cur)
  end.

Definition split (s : string) : list string :=
  map of_list (split_go (to_list s) []).

(** [str.strip(chars)] : remove leading and trailing characters of [chars]. *)
Fixpoint lstrip_list (p : ascii -> bool) (l : list ascii) : list ascii :=
  match l with
  | [] => []
  | c :: r => if p c then lstrip_list p r else l
  end.

Definition strip_by (p : ascii -> bool) (s : string) : string :=
  of_list (rev (lstrip_list p (rev (lstrip_list p (to_list s))))).

(** The punctuation set ['.,!?()[]{}'] of [_tokenize]. *)
Definition is_punct (c : ascii) : bool :=
  existsb (fun d => Ascii.eqb c d) (to_list ".,!?()[]{}").

Definition strip_punct (s : string) : string := strip_by is_punct s.

(** [str.strip()] *)
Definition strip_ws (s : string) : string := strip_by is_space s.

(** [str.lower()] on ASCII. *)
Definition lower_char (c : ascii) : ascii :=
  let n := nat_of_ascii c in
  if (65 <=? n) && (n <=? 90) then ascii_of_nat (n + 32) else c.

Definition lower (s : string) : string := of_list (map lower_char (to_list s)).

End PyStr.

(* ------------------------------------------------------------------ *)
(** ** Sets as duplicate-free lists *)

Definition str_mem (w : string) (l : list string) : bool :=
  existsb (String.eqb w) l.

(** [set.add] for strings: append when absent (insertion order). *)
Definition str_set_add (w : string) (s : list string) : list string :=
  if str_mem w s then s else (s ++ [w])%list.

(** [list(set(xs))] *)
Definition str_set_of (xs : list string) : list string :=
  fold_left (fun acc w => str_set_add w acc) xs [].

(** [set.update] for strings. *)
Definition str_set_update (s : list string) (xs : list string) : list string :=
  fold_left (fun acc w => str_set_add w acc) xs s.

(** [len(a & b)] with [a] given as a list (duplicates collapse). *)
Definition inter_card (a b : list string) : nat :=
  length (filter (fun w => str_mem w b) (str_set_of a)).

(** Sets of positions, kept in ascending order. *)
Fixpoint nat_set_add (n : nat) (s : list nat) : list nat :=
  match s with
  | [] => [n]
  | m :: r =>
      if n =? m then s
      else if n <? m then n :: s
      else m :: nat_set_add n r
  end.

Definition nat_set_update (s : list nat) (xs : list nat) : list nat :=
  fold_left (fun acc n => nat_set_add n acc) xs s.

(* ------------------------------------------------------------------ *)
(** ** Records (the dicts produced by the bot from the [commands] table) *)

Record Cmd := mkCmd {
  cmd_id : nat;
  intent : string;
  command : string;
  description : string
}.

(** [f"{cmd.get('intent','')} {cmd.get('command','')} {cmd.get('description','')}"] *)
Definition search_text (cmd : Cmd) : string :=
  intent cmd ++ " " ++ command cmd ++ " " ++ description cmd.

(** [CommandSearcher._tokenize] *)
Definition tokenize (text : string) : list string :=
  match text with
  | EmptyString => []
  | _ =>
      str_set_of
        (map (fun word => PyStr.lower (PyStr.strip_punct word))
             (filter (fun word => 2 <? String.length (PyStr.strip_punct word))
                     (PyStr.split text)))
  end.

(* ------------------------------------------------------------------ *)
(** ** Errors: Python exceptions the code can raise *)

Inductive py_error :=
| TypeError          (** unpacking [None] returned by [process.extractOne] *)
| IndexError         (** subscript of a list out of range *)
| ZeroDivisionError  (** [idx % 0] *)
| AttributeError.    (** [self.lm] is [None] *)

Inductive result (A : Type) :=
| Ok (a : A)
| Err (e : py_error).
Arguments Ok {A} a.
Arguments Err {A} e.

Definition bind {A B} (m : result A) (k : A -> result B) : result B :=
  match m with Ok a => k a | Err e => Err e end.

Notation "x <- m ;; k" := (bind m (fun x => k))
  (at level 61, m at next level, right associativity).

(** [for x in xs: ...] whose body may raise, collecting the results. *)
Fixpoint map_res {A B} (f : A -> result B) (xs : list A) : result (list B) :=
  match xs with
  | [] => Ok []
  | x :: r => y <- f x ;; ys <- map_res f r ;; Ok (y :: ys)
  end.

(** [lst[i]] for a non-negative [i]. *)
Definition py_index {A} (l : list A) (i : nat) : result A :=
  match nth_error l i with Some a => Ok a | None => Err IndexError end.

(* ------------------------------------------------------------------ *)
(** ** numpy on vectors ([list R]) and matrices (lists of rows) *)

Open Scope R_scope.

(** [a + b] elementwise *)
Definition vadd (a b : list R) : list R :=
  map (fun p => fst p + snd p) (combine a b).

(** [a * k] for a scalar [k] *)
Definition vscale (k : R) (v : list R) : list R := map (fun x => x * k) v.

(** [np.dot] of two vectors *)
Fixpoint dot (a b : list R) : R :=
  match a, b with
  | x :: a', y :: b' => x * y + dot a' b'
  | _, _ => 0
  end.

(** [np.linalg.norm] of a vector *)
Definition norm (v : list R) : R := sqrt (dot v v).

(** [np.mean(rows, axis=0)] for a non-empty list of rows *)
Definition mean_rows (rows : list (list R)) : list R :=
  match rows with
  | [] => []
  | r :: rs => map (fun x => x / INR (length rows)) (fold_left vadd rs r)
  end.

(** [np.dot(v, M)] for a vector [v] and an [embed_size x 3] matrix [M] *)
Definition vecmat (v : list R) (M : list (list R)) : list R :=
  fold_left (fun acc p => vadd acc (map (fun m => fst p * m) (snd p)))
            (combine v M) [0; 0; 0].

Definition sigmoid (x : R) : R := 1 / (1 + exp (- x)).

(* ------------------------------------------------------------------ *)
(** ** [MicroLanguageModel] *)

Record MicroLanguageModel := mkLM {
  embeddings : list (list R);      (** [vocab_size x embed_size] *)
  attention_weights : list R;      (** [embed_size] *)
  classifier : list (list R)       (** [embed_size x 3] *)
}.

(** [[self.embeddings[idx % len(self.embeddings)] for idx in word_indices]] *)
Definition gather (m : MicroLanguageModel) (word_indices : list nat)
  : result (list (list R)) :=
  map_res (fun idx =>
             match length (embeddings m) with
             | O => Err ZeroDivisionError
             | n => py_index (embeddings m) (Nat.modulo idx n)
             end) word_indices.

(** [MicroLanguageModel.forward] *)
Definition forward (m : MicroLanguageModel) (word_indices : list nat)
  : result (list R) :=
  match word_indices with
  | [] => Ok [0.33; 0.33; 0.33]
  | _ =>
      rows <- gather m word_indices ;;
      let embedded := mean_rows rows in
      let attention_scores := dot embedded (attention_weights m) in
      (* np.sum of the 0-d array [np.exp(attention_scores)] is itself *)
      let attn := exp attention_scores / exp attention_scores in
      let features := vecmat (vscale attn embedded) (classifier m) in
      Ok (map sigmoid features)
  end.

(** The cosine of [_analyze_with_lm], remapped to [0,1]. *)
Definition lm_similarity (query_features cmd_features : list R) : R :=
  let similarity :=
    dot query_features cmd_features /
      (norm query_features * norm cmd_features + 1e-6) in
  (similarity + 1) / 2.

(** The combined score of [search]. *)
Definition combine_score (lm_score coverage density : R) : R :=
  lm_score * 0.6 + coverage * 0.3 + density * 0.1.

(** [coverage = len(matched_words) / len(query_words)] with
    [matched_words = set(query_words) & cmd_words]. *)
Definition coverage (query_words cmd_words : list string) : R :=
  INR (inter_card query_words cmd_words) / INR (length query_words).

(** [density = len(matched_words) / len(cmd_words) if cmd_words else 0] *)
Definition density (query_words cmd_words : list string) : R :=
  match cmd_words with
  | [] => 0
  | _ => INR (inter_card query_words cmd_words) / INR (length cmd_words)
  end.

(** Boolean comparisons on floats. *)
Definition Rltb (x y : R) : bool := if Rlt_dec x y then true else false.
Definition Reqb (x y : R) : bool := if Req_dec_T x y then true else false.

Close Scope R_scope.

(* ------------------------------------------------------------------ *)
(** ** [heapq.heappush] and [sorted(..., key=lambda x: x[0])] *)

(** The entries [(-score, idx)] of [scored_results], compared as tuples. *)
Definition entry := (R * nat)%type.

Definition tuple_lt (a b : entry) : bool :=
  Rltb (fst a) (fst b) || (Reqb (fst a) (fst b) && (snd a <? snd b)).

(** [heap[pos] = v] *)
Fixpoint list_set {A} (l : list A) (pos : nat) (v : A) : list A :=
  match l, pos with
  | [], _ => []
  | _ :: r, O => v :: r
  | x :: r, S p => x :: list_set r p v
  end.

(** The loop of [heapq._siftdown(heap, 0, pos)] with [newitem] in hand;
    [fuel] bounds the number of iterations ([pos] strictly decreases). *)
Fixpoint siftdown_loop (fuel : nat) (heap : list entry) (pos : nat)
         (newitem : entry) : list entry :=
  match fuel with
  | O => list_set heap pos newitem
  | S f =>
      match pos with
      | O => list_set heap pos newitem
      | S _ =>
          let parentpos := Nat.div2 (pos - 1) in
          let parent := nth parentpos heap (0%R, O) in
          if tuple_lt newitem parent
          then siftdown_loop f (list_set heap pos parent) parentpos newitem
          else list_set heap pos newitem
      end
  end.

(** [heapq.heappush(heap, item)] *)
Definition heappush (heap : list entry) (item : entry) : list entry :=
  siftdown_loop (S (length heap)) ((heap ++ [item])%list) (length heap) item.

(** Stable sort by the key [x[0]] (any stable sort gives [sorted]'s output). *)
Fixpoint insert_by_key (x : entry) (l : list entry) : list entry :=
  match l with
  | [] => [x]
  | y :: r => if Rltb (fst x) (fst y) then x :: l else y :: insert_by_key x r
  end.

Definition sort_by_key (l : list entry) : list entry :=
  fold_left (fun acc x => insert_by_key x acc) l [].

(* ------------------------------------------------------------------ *)
(** ** [CommandSearcher] *)

Fixpoint lookup {A} (k : string) (l : list (string * A)) : option A :=
  match l with
  | [] => None
  | (k', v) :: r => if String.eqb k k' then Some v else lookup k r
  end.

(** [self.word_index[word].add(idx)] on the [defaultdict(set)] *)
Fixpoint wi_add (w : string) (idx : nat) (wi : list (string * list nat))
  : list (string * list nat) :=
  match wi with
  | [] => [(w, [idx])]
  | (k, s) :: r =>
      if String.eqb k w then (k, nat_set_add idx s) :: r
      else (k, s) :: wi_add w idx r
  end.

Record CommandSearcher := mkSearcher {
  word_index : list (string * list nat);
  command_keywords : list (list string);
  known_words : list string;          (** keys of [spell_checker.word_frequency] *)
  all_words : list string;
  word_to_idx : list (string * nat);
  lm : option MicroLanguageModel
}.

Section Searcher.

(** The dictionary [SpellChecker()] loads at construction. *)
Variable default_words : list string.
(** [SpellChecker.correction(word)] given the known words ([None] or a word). *)
Variable correction : list string -> string -> option string.
(** [fuzz.WRatio(query, choice)], a similarity on the 0-100 scale. *)
Variable WRatio : string -> string -> R.
(** The parameters [np.random.randn] draws for a given [vocab_size]. *)
Variable random_lm : nat -> MicroLanguageModel.

(** [CommandSearcher.__init__] *)
Definition init : CommandSearcher :=
  {| word_index := []; command_keywords := []; known_words := default_words;
     all_words := []; word_to_idx := []; lm := None |}.

(** The vocabulary loop of [build_index]. *)
Definition build_vocab (commands : list Cmd) : list string :=
  fold_left (fun vocab cmd => str_set_update vocab (tokenize (search_text cmd)))
            commands [].

(** The command-index loop of [build_index]. *)
Definition build_command_index (commands : list Cmd)
  : list (string * list nat) * list (list string) :=
  fold_left
    (fun acc p =>
       let words := tokenize (search_text (snd p)) in
       (fold_left (fun wi word => wi_add word (fst p) wi) words (fst acc),
        (snd acc ++ [str_set_of words])%list))
    (combine (seq 0 (length commands)) commands) ([], []).

(** [CommandSearcher.build_index] *)
Definition build_index (st : CommandSearcher) (commands : list Cmd)
  : CommandSearcher :=
  let all_words := build_vocab commands in
  let word_to_idx := combine all_words (seq 0 (length all_words)) in
  (* spell_checker.word_frequency.load_words(self.all_words) *)
  let known := str_set_update (known_words st) all_words in
  let ci := build_command_index commands in
  {| word_index := fst ci; command_keywords := snd ci; known_words := known;
     all_words := all_words; word_to_idx := word_to_idx;
     lm := Some (random_lm (length all_words)) |}.

(** [process.extractOne(query, choices, scorer=fuzz.WRatio)]: the first
    choice of maximal score, [None] when [choices] is empty (WRatio scores lie
    in [0,100], so the default cutoff 0 excludes no choice). *)
Fixpoint extract_one_go (query : string) (best : option (string * R))
         (choices : list string) : option (string * R) :=
  match choices with
  | [] => best
  | c :: r =>
      let s := WRatio query c in
      match best with
      | None => extract_one_go query (Some (c, s)) r
      | Some (_, bs) =>
          if Rltb bs s then extract_one_go query (Some (c, s)) r
          else extract_one_go query best r
      end
  end.

Definition extract_one (query : string) (choices : list string)
  : option (string * R) :=
  extract_one_go query None choices.

Definition in_vocab (st : CommandSearcher) (w : string) : bool :=
  match lookup w (word_to_idx st) with Some _ => true | None => false end.

(** [CommandSearcher._correct_spelling] *)
Definition correct_spelling (st : CommandSearcher) (word : string)
  : result string :=
  if in_vocab st word then Ok word else
  let fallback :=
    match extract_one word (all_words st) with
    | None => Err TypeError  (* best_match, score, _ = None *)
    | Some (best_match, score) =>
        Ok (if Rltb 80 score then best_match else word)
    end in
  match correction (known_words st) word with
  | Some c =>
      if negb (String.eqb c "") && in_vocab st c then Ok c else fallback
  | None => fallback
  end.

(** [CommandSearcher._get_word_indices] *)
Definition get_word_indices (st : CommandSearcher) (words : list string)
  : list nat :=
  flat_map (fun w => match lookup w (word_to_idx st) with
                     | Some i => [i] | None => [] end) words.

(** [CommandSearcher._analyze_with_lm] *)
Definition analyze_with_lm (st : CommandSearcher)
           (query_words cmd_words : list string) : result R :=
  match lm st with
  | None => Err AttributeError
  | Some m =>
      query_features <- forward m (get_word_indices st query_words) ;;
      cmd_features <- forward m (get_word_indices st cmd_words) ;;
      Ok (lm_similarity query_features cmd_features)
  end.

(** The query loop of [search]: correct each token, keep the truthy ones. *)
Fixpoint process_words (st : CommandSearcher) (words : list string)
  : result (list string) :=
  match words with
  | [] => Ok []
  | word :: r =>
      corrected <- correct_spelling st word ;;
      rest <- process_words st r ;;
      Ok (if String.eqb corrected "" then rest else corrected :: rest)
  end.

Definition find_candidates (st : CommandSearcher) (query_words : list string)
  : list nat :=
  fold_left
    (fun acc word =>
       nat_set_update acc (match lookup word (word_index st) with
                           | Some s => s | None => [] end))
    query_words [].

(** The body of the scoring loop for one candidate. *)
Definition score_candidate (st : CommandSearcher) (query_words : list string)
           (idx : nat) : result R :=
  cmd_words <- py_index (command_keywords st) idx ;;
  lm_score <- analyze_with_lm st query_words cmd_words ;;
  Ok (combine_score lm_score (coverage query_words cmd_words)
                    (density query_words cmd_words)).

Fixpoint score_loop (st : CommandSearcher) (query_words : list string)
         (cands : list nat) (heap : list entry) : result (list entry) :=
  match cands with
  | [] => Ok heap
  | idx :: r =>
      score <- score_candidate st query_words idx ;;
      score_loop st query_words r
        (if Rltb 0.3 score then heappush heap ((- score)%R, idx) else heap)
  end.

Definition is_empty (s : string) : bool :=
  match s with EmptyString => true | _ => false end.

(** The final list comprehension of [search]. *)
Definition emit (commands : list Cmd) (p : entry) : result (Cmd * R) :=
  cmd <- py_index commands (snd p) ;; Ok (cmd, (- fst p)%R).

(** [CommandSearcher.search] *)
Definition search (st : CommandSearcher) (query : string) (commands : list Cmd)
  : result (list (Cmd * R)) :=
  if is_empty (PyStr.strip_ws query) then Ok [] else
  query_words <- process_words st (tokenize query) ;;
  match query_words with
  | [] => Ok []
  | _ =>
      scored_results <-
        score_loop st query_words (find_candidates st query_words) [] ;;
      map_res (emit commands) (firstn 3 (sort_by_key scored_results))
  end.

End Searcher.

(* ------------------------------------------------------------------ *)
(** ** Properties of result lists, and the spec's readings of two features *)

(** The keys [x[0]] of a list of entries are in ascending order. *)
Fixpoint keys_ascending (l : list entry) : Prop :=
  match l with
  | a :: ((b :: _) as r) => (fst a <= fst b)%R /\ keys_ascending r
  | _ => True
  end.

Fixpoint non_increasing (l : list R) : Prop :=
  match l with
  | a :: ((b :: _) as r) => (a >= b)%R /\ non_increasing r
  | _ => True
  end.

Fixpoint strictly_decreasing (l : list R) : Prop :=
  match l with
  | a :: ((b :: _) as r) => (a > b)%R /\ strictly_decreasing r
  | _ => True
  end.

(** Coverage as the spec words it: the matched distinct query tokens over the
    number of distinct query tokens. *)
Definition coverage_over_distinct (query_words cmd_words : list string) : R :=
  (INR (inter_card query_words cmd_words)
   / INR (length (str_set_of query_words)))%R.

(** [forward] with the attention stage removed: the sigmoid of the mean of
    the addressed embedding rows multiplied through the classifier. *)
Definition forward_without_attention (m : MicroLanguageModel)
           (word_indices : list nat) : result (list R) :=
  match word_indices with
  | [] => Ok [0.33%R; 0.33%R; 0.33%R]
  | _ =>
      rows <- gather m word_indices ;;
      Ok (map sigmoid (vecmat (mean_rows rows) (classifier m)))
  end.

(* ------------------------------------------------------------------ *)
(** ** [tiny_duckie_bot.py]: formatting a stored command *)

Module PyStrSep.

(** [str.split(sep)] with an explicit one-character separator: every
    separator ends a piece, and empty pieces are kept. *)
Fixpoint split_sep_go (sep : ascii) (l : list ascii) (cur : list ascii)
  : list (list ascii) :=
  match l with
  | [] => [rev cur]
  | c :: r =>
      if Ascii.eqb c sep then rev cur :: split_sep_go sep r []
      else split_sep_go sep r (c :: cur)
  end.

Definition split_sep (sep : ascii) (s : string) : list string :=
  map PyStr.of_list (split_sep_go sep (PyStr.to_list s) []).

(** [sep.join(pieces)] for a one-character [sep]. *)
Fixpoint join_sep (sep : ascii) (pieces : list string) : string :=
  match pieces with
  | [] => ""
  | [p] => p
  | p :: r => p ++ String sep (join_sep sep r)
  end.

(** [str.lstrip()] *)
Definition lstrip (s : string) : string :=
  PyStr.of_list (PyStr.lstrip_list PyStr.is_space (PyStr.to_list s)).

(** [s[n:]] *)
Fixpoint drop (n : nat) (s : string) : string :=
  match n, s with
  | O, _ => s
  | S _, EmptyString => EmptyString
  | S m, String _ r => drop m r
  end.

End PyStrSep.

Definition newline : ascii := ascii_of_nat 10.

(** The loop [for i, line in enumerate(lines)] of [_format_command], started
    at index [i]. *)
Fixpoint format_lines (i : nat) (lines : list string) : list string :=
  match lines with
  | [] => []
  | line :: r =>
      (if i =? 0 then line else "    " ++ PyStrSep.lstrip line)
        :: format_lines (S i) r
  end.

(** [TinyDuckieBot._format_command] *)
Definition format_command (command : string) : string :=
  let lines := PyStrSep.split_sep newline command in
  if length lines =? 1 then command
  else PyStrSep.join_sep newline (format_lines 0 lines).

(* ------------------------------------------------------------------ *)
(** ** [tiny_duckie_bot.py]: the [commands] table and the bot *)











Section Bot.

Variable default_words : list string.
Variable correction : list string -> string -> option string.
Variable WRatio : string -> string -> R.
Variable random_lm : nat -> MicroLanguageModel.








End Bot.

(** What one line typed at the prompt of [TinyDuckieBot.run] leads to;
    [DeleteCommand] carries the text handed to [int]. *)
Inductive bot_action :=
| NoAction
| ExitBot
| ShowHelp
| AddCommand (i c desc : string)
| AddUsage
| DeleteCommand (arg : string)
| SearchQuery (q : string).

(** The dispatch on [user_input] in the loop of [TinyDuckieBot.run]. *)
Definition dispatch (line : string) : bot_action :=
  let user_input := PyStr.strip_ws line in
  if is_empty user_input then NoAction
  else if String.eqb (PyStr.lower user_input) "/exit" then ExitBot
  else if String.eqb (PyStr.lower user_input) "/help" then ShowHelp
  else if String.prefix "/add" (PyStr.lower user_input) then
    let parts := map PyStr.strip_ws
                     (PyStrSep.split_sep "|"%char (PyStrSep.drop 4 user_input)) in
    if 2 <=? length parts then
      AddCommand (nth 0 parts "") (nth 1 parts "")
                 (if 2 <? length parts then nth 2 parts "" else "")
    else AddUsage
  else if String.prefix "/delete" (PyStr.lower user_input) then
    DeleteCommand (PyStr.strip_ws (PyStrSep.drop 7 user_input))
  else SearchQuery user_input.

(* ------------------------------------------------------------------ *)
(** ** A concrete configuration of the collaborators, for examples *)

Module Concrete.

Definition no_words : list string := [].
Definition no_correction (_ : list string) (_ : string) : option string := None.
Definition zero_ratio (_ _ : string) : R := 0%R.
Definition zero_lm (n : nat) : MicroLanguageModel :=
  mkLM (repeat (repeat 0%R 16) n) (repeat 0%R 16) (repeat [0%R; 0%R; 0%R] 16).

(** The three default commands the bot inserts into an empty table. *)
Definition default_catalog : list Cmd :=
  [ mkCmd 1 "ssh connect with private key" "ssh username@host -i id_rsa"
          "Connect SSH using private key authentication";
    mkCmd 2 "simple ssh command" "ssh username@host"
          "Basic SSH connection command";
    mkCmd 3 "scan network ports" "nmap -sV -T4 192.168.1.0/24"
          "Scan network for open ports and services" ].

Definition built : CommandSearcher :=
  build_index zero_lm (init no_words) default_catalog.

(** Two records whose searchable texts give the same keyword set (the
    commands [ls] and [ll] are too short to be tokens). *)
Definition twin_catalog : list Cmd :=
  [ mkCmd 1 "list files" "ls" ""; mkCmd 2 "list files" "ll" "" ].

Definition twin_built : CommandSearcher :=
  build_index zero_lm (init no_words) twin_catalog.

(** A spell checker whose dictionary already holds an English word. *)
Definition hello_words : list string := ["hello"].

(** The default catalog indexed, then re-indexed on [twin_catalog]. *)
Definition rebuilt : CommandSearcher :=
  build_index zero_lm (build_index zero_lm (init hello_words) default_catalog)
              twin_catalog.

(** A spell checker that corrects ["netowrk"] to ["network"]. *)
Definition fix_netowrk (_ : list string) (w : string) : option string :=
  if String.eqb w "netowrk" then Some "network" else None.

Definition network_catalog : list Cmd := [ mkCmd 1 "check network" "ping" "" ].

Definition network_built : CommandSearcher :=
  build_index zero_lm (init no_words) network_catalog.

End Concrete.

Example tokenize_ssh :
  tokenize "ssh connect with private key, (ssh) Key!" =
  ["ssh"; "connect"; "with"; "private"; "key"].
Proof. reflexivity. Qed.

Example built_keywords_0 :
  nth 0 (command_keywords Concrete.built) [] =
  ["ssh"; "connect"; "with"; "private"; "key"; "username@host"; "id_rsa";
   "using"; "authentication"].
Proof. vm_compute. reflexivity. Qed.

Example query_ssh_key :
  process_words Concrete.no_correction Concrete.zero_ratio Concrete.built
                (tokenize "ssh key") = Ok ["ssh"; "key"].
Proof. vm_compute. reflexivity. Qed.

Example candidates_ssh_key :
  find_candidates Concrete.built ["ssh"; "key"] = [0; 1]%nat.
Proof. vm_compute. reflexivity. Qed.

(* ================================================================== *)
(** * Lemmas *)

(** ** The similarity of [_analyze_with_lm] *)

Open Scope R_scope.

Lemma dot_self_nonneg (a : list R) : 0 <= dot a a.
Proof.
  induction a as [|x a IH]; simpl; [lra | nra].
Qed.

(** Cauchy-Schwarz for [dot] (on the common prefix of the two vectors). *)
Lemma dot_sq_le (a b : list R) : dot a b * dot a b <= dot a a * dot b b.
Proof.
  revert b; induction a as [|x a IH]; intros [|y b]; simpl.
  - lra.
  - lra.
  - pose proof (dot_self_nonneg a); nra.
  - specialize (IH b).
    pose proof (dot_self_nonneg a) as HA; pose proof (dot_self_nonneg b) as HB.
    set (A := dot a a) in *; set (B := dot b b) in *; set (D := dot a b) in *.
    assert (Hk : 2 * (x * y) * D <= x * x * B + y * y * A).
    { destruct (Rle_lt_dec A 0) as [HA0 | HA0].
      - assert (A = 0) by lra.
        assert (D * D <= 0) by nra.
        assert (D = 0) by nra.
        subst D; nra.
      - assert (A * (x * x * B + y * y * A - 2 * (x * y) * D) >= 0).
        { assert (H1 : 0 <= x * x * (A * B - D * D))
            by (apply Rmult_le_pos; nra).
          assert (H2 : 0 <= (x * D - y * A) * (x * D - y * A))
            by apply Rle_0_sqr.
          nra. }
        nra. }
    nra.
Qed.

Lemma dot_abs_le (a b : list R) :
  - (norm a * norm b) <= dot a b <= norm a * norm b.
Proof.
  unfold norm.
  pose proof (dot_sq_le a b) as H.
  pose proof (dot_self_nonneg a) as HA; pose proof (dot_self_nonneg b) as HB.
  pose proof (sqrt_sqrt _ HA) as EA; pose proof (sqrt_sqrt _ HB) as EB.
  pose proof (sqrt_pos (dot a a)); pose proof (sqrt_pos (dot b b)).
  set (N := sqrt (dot a a) * sqrt (dot b b)).
  assert (EN : N * N = dot a a * dot b b) by (unfold N; nra).
  assert (0 <= N) by (unfold N; nra).
  split; nra.
Qed.

Lemma lm_similarity_range (a b : list R) :
  0 < lm_similarity a b < 1.
Proof.
  unfold lm_similarity.
  pose proof (dot_abs_le a b) as [Hl Hu].
  assert (0 <= norm a) by apply sqrt_pos.
  assert (0 <= norm b) by apply sqrt_pos.
  set (N := norm a * norm b) in *.
  assert (HN : 0 <= N) by (unfold N; nra).
  set (den := N + 1e-6).
  assert (Hd : 0 < den) by (unfold den; lra).
  assert (Hi : den * / den = 1) by (apply Rinv_r; lra).
  assert (0 < / den) by (apply Rinv_0_lt_compat; lra).
  unfold Rdiv.
  assert (- 1 < dot a b * / den < 1).
  { split; unfold den in *; nra. }
  lra.
Qed.

Close Scope R_scope.

(** ** Sets as lists *)

Lemma str_mem_In (w : string) (l : list string) : str_mem w l = true <-> In w l.
Proof.
  unfold str_mem; rewrite existsb_exists; split.
  - intros (x & Hx & E); apply String.eqb_eq in E; subst; exact Hx.
  - intros H; exists w; split; [exact H | apply String.eqb_refl].
Qed.

Lemma str_set_update_In (s xs : list string) (w : string) :
  In w (str_set_update s xs) <-> In w s \/ In w xs.
Proof.
  unfold str_set_update; revert s; induction xs as [|x xs IH]; intros s; simpl.
  - tauto.
  - rewrite IH; unfold str_set_add.
    destruct (str_mem x s) eqn:E.
    + apply str_mem_In in E; split; [tauto|].
      intros [H|[H|H]]; [tauto| subst; tauto | tauto].
    + rewrite in_app_iff; simpl; tauto.
Qed.

Lemma str_set_update_NoDup (s xs : list string) :
  NoDup s -> NoDup (str_set_update s xs).
Proof.
  unfold str_set_update; revert s; induction xs as [|x xs IH]; intros s Hs;
    simpl; [exact Hs|].
  apply IH; unfold str_set_add.
  destruct (str_mem x s) eqn:E; [exact Hs|].
  apply NoDup_app; [exact Hs | constructor; [intros []|constructor] |].
  intros y Hy [Ey|[]]; subst y.
  apply str_mem_In in Hy; congruence.
Qed.

Lemma str_set_of_In (xs : list string) (w : string) :
  In w (str_set_of xs) <-> In w xs.
Proof.
  unfold str_set_of; change (fold_left _ xs []) with (str_set_update [] xs).
  rewrite str_set_update_In; simpl; tauto.
Qed.

Lemma str_set_of_NoDup (xs : list string) : NoDup (str_set_of xs).
Proof.
  unfold str_set_of; change (fold_left _ xs []) with (str_set_update [] xs).
  apply str_set_update_NoDup; constructor.
Qed.

Lemma str_set_of_length (xs : list string) :
  (length (str_set_of xs) <= length xs)%nat.
Proof.
  apply NoDup_incl_length; [apply str_set_of_NoDup|].
  intros w; apply str_set_of_In.
Qed.

Lemma filter_length_le_ {A} (f : A -> bool) (l : list A) :
  (length (filter f l) <= length l)%nat.
Proof.
  induction l as [|x l IH]; simpl; [lia|]; destruct (f x); simpl; lia.
Qed.

Lemma inter_card_le_query (qw cw : list string) :
  (inter_card qw cw <= length qw)%nat.
Proof.
  unfold inter_card.
  pose proof (filter_length_le_ (fun w => str_mem w cw) (str_set_of qw)).
  pose proof (str_set_of_length qw); lia.
Qed.

Lemma inter_card_le_keywords (qw cw : list string) :
  (inter_card qw cw <= length cw)%nat.
Proof.
  unfold inter_card; apply NoDup_incl_length.
  - apply NoDup_filter, str_set_of_NoDup.
  - intros w Hw; apply filter_In in Hw as [_ Hw]; apply str_mem_In, Hw.
Qed.

(** ** Ratios *)

Open Scope R_scope.

Lemma ratio_range (a b : nat) :
  (a <= b)%nat -> 0 <= INR a / INR b <= 1.
Proof.
  intros Hab; destruct b as [|b].
  - assert (a = 0%nat) by lia; subst; simpl; unfold Rdiv; rewrite Rmult_0_l; lra.
  - assert (Hb : 0 < INR (S b)) by (apply lt_0_INR; lia).
    assert (Ha : INR a <= INR (S b)) by (apply le_INR; exact Hab).
    assert (0 <= INR a) by apply pos_INR.
    assert (Hi : INR (S b) * / INR (S b) = 1) by (apply Rinv_r; lra).
    assert (0 < / INR (S b)) by (apply Rinv_0_lt_compat; lra).
    unfold Rdiv; split; nra.
Qed.

Lemma coverage_range (qw cw : list string) : 0 <= coverage qw cw <= 1.
Proof. apply ratio_range, inter_card_le_query. Qed.

Lemma density_range (qw cw : list string) : 0 <= density qw cw <= 1.
Proof.
  unfold density; destruct cw as [|c cw]; [lra|].
  apply ratio_range, inter_card_le_keywords.
Qed.

Lemma combine_score_le_1 (l c d : R) :
  l <= 1 -> c <= 1 -> d <= 1 -> combine_score l c d <= 1.
Proof. unfold combine_score; lra. Qed.

Close Scope R_scope.

(** ** [heappush] and the sort keep the entries *)

Lemma list_set_length {A} (l : list A) (p : nat) (v : A) :
  length (list_set l p v) = length l.
Proof.
  revert p; induction l as [|x l IH]; intros [|p]; simpl; auto.
Qed.

Lemma list_set_In {A} (l : list A) (p : nat) (v e : A) :
  In e (list_set l p v) -> In e l \/ e = v.
Proof.
  revert p; induction l as [|x l IH]; intros [|p]; simpl; auto.
  - intros [H|H]; auto.
  - intros [H|H]; auto. destruct (IH p H); auto.
Qed.

Lemma div2_pred_lt (pos : nat) : (0 < pos)%nat -> (Nat.div2 (pos - 1) < pos)%nat.
Proof.
  intros H; pose proof (Nat.div2_odd (pos - 1)) as E.
  destruct (Nat.odd (pos - 1)); simpl in E; lia.
Qed.

Lemma siftdown_loop_In (fuel : nat) (heap : list entry) (pos : nat)
      (newitem e : entry) :
  (pos < length heap)%nat ->
  In e (siftdown_loop fuel heap pos newitem) -> In e heap \/ e = newitem.
Proof.
  revert heap pos; induction fuel as [|f IH]; intros heap pos Hpos; simpl.
  - apply list_set_In.
  - destruct pos as [|p]; [apply list_set_In|].
    destruct (tuple_lt newitem _); [|apply list_set_In].
    intros H; apply IH in H.
    + destruct H as [H|H]; [|auto].
      apply list_set_In in H as [H|H]; [auto|].
      left; subst e; apply nth_In; pose proof (div2_pred_lt (S p)); lia.
    + rewrite list_set_length; pose proof (div2_pred_lt (S p)); lia.
Qed.

Lemma heappush_In (heap : list entry) (item e : entry) :
  In e (heappush heap item) -> In e heap \/ e = item.
Proof.
  unfold heappush; intros H.
  apply siftdown_loop_In in H; [|rewrite length_app; simpl; lia].
  destruct H as [H|H]; [|auto].
  apply in_app_iff in H as [H|[H|[]]]; auto.
Qed.

Lemma insert_by_key_In (x e : entry) (l : list entry) :
  In e (insert_by_key x l) <-> e = x \/ In e l.
Proof.
  induction l as [|y l IH]; simpl; [intuition congruence|].
  destruct (Rltb (fst x) (fst y)); simpl; rewrite ?IH; intuition congruence.
Qed.

Lemma sort_by_key_In (l : list entry) (e : entry) :
  In e (sort_by_key l) <-> In e l.
Proof.
  unfold sort_by_key.
  enough (H : forall acc,
             In e (fold_left (fun acc x => insert_by_key x acc) l acc)
             <-> In e acc \/ In e l) by (rewrite H; simpl; tauto).
  induction l as [|x l IH]; intros acc; simpl; [tauto|].
  rewrite IH, insert_by_key_In; intuition congruence.
Qed.

Lemma insert_by_key_ascending_cons (x z : entry) (l : list entry) :
  keys_ascending (z :: l) -> (fst z <= fst x)%R ->
  keys_ascending (z :: insert_by_key x l).
Proof.
  revert z; induction l as [|y l IH]; intros z Hs Hzx; simpl.
  - split; [exact Hzx | exact I].
  - destruct Hs as [Hzy Hs].
    unfold Rltb; destruct (Rlt_dec (fst x) (fst y)) as [Hxy|Hxy].
    + simpl; repeat split; auto; lra.
    + split; [exact Hzy|]. apply IH; [exact Hs | lra].
Qed.

Lemma insert_by_key_ascending (x : entry) (l : list entry) :
  keys_ascending l -> keys_ascending (insert_by_key x l).
Proof.
  destruct l as [|y l]; simpl; [auto|].
  intros Hs; unfold Rltb; destruct (Rlt_dec (fst x) (fst y)) as [Hxy|Hxy].
  - simpl; split; [lra | exact Hs].
  - apply insert_by_key_ascending_cons; [exact Hs | lra].
Qed.

Lemma sort_by_key_ascending (l : list entry) :
  keys_ascending (sort_by_key l).
Proof.
  unfold sort_by_key.
  enough (H : forall acc, keys_ascending acc ->
              keys_ascending (fold_left (fun acc x => insert_by_key x acc) l acc))
    by (apply H; exact I).
  induction l as [|x l IH]; intros acc Hacc; simpl; [exact Hacc|].
  apply IH, insert_by_key_ascending, Hacc.
Qed.

Lemma keys_ascending_firstn (n : nat) (l : list entry) :
  keys_ascending l -> keys_ascending (firstn n l).
Proof.
  revert l; induction n as [|n IH]; intros [|a l] H; simpl; auto.
  destruct l as [|b l]; [destruct n; simpl; auto|].
  destruct H as [Hab H]; destruct n as [|n]; simpl; [auto|].
  specialize (IH (b :: l) H); simpl in IH; split; auto.
Qed.

(** ** [map_res] *)

Lemma map_res_Forall2 {A B} (f : A -> result B) (xs : list A) (ys : list B) :
  map_res f xs = Ok ys -> Forall2 (fun x y => f x = Ok y) xs ys.
Proof.
  revert ys; induction xs as [|x xs IH]; intros ys; simpl.
  - intros H; injection H as <-; constructor.
  - destruct (f x) as [y|e] eqn:Ef; simpl; [|discriminate].
    destruct (map_res f xs) as [ys'|e] eqn:Er; simpl; [|discriminate].
    intros H; injection H as <-; constructor; auto.
Qed.

Lemma emit_spec (commands : list Cmd) (p : entry) (y : Cmd * R) :
  emit commands p = Ok y ->
  nth_error commands (snd p) = Some (fst y) /\ snd y = (- fst p)%R.
Proof.
  unfold emit, py_index; destruct (nth_error commands (snd p)); simpl;
    [|discriminate].
  intros H; injection H as <-; auto.
Qed.

Lemma emit_scores (commands : list Cmd) (xs : list entry) (ys : list (Cmd * R)) :
  map_res (emit commands) xs = Ok ys ->
  map snd ys = map (fun p => (- fst p)%R) xs.
Proof.
  intros H; apply map_res_Forall2 in H.
  induction H as [|x y xs ys Hxy _ IH]; simpl; [reflexivity|].
  rewrite IH; f_equal; apply emit_spec in Hxy; tauto.
Qed.

Lemma ascending_to_non_increasing (l : list entry) :
  keys_ascending l -> non_increasing (map (fun p => (- fst p)%R) l).
Proof.
  induction l as [|a [|b l] IH]; simpl; auto.
  intros [Hab H]; split; [lra | apply IH, H].
Qed.

(** ** The scoring loop of [search] *)

Lemma analyze_with_lm_range (st : CommandSearcher) (qw cw : list string) (l : R) :
  analyze_with_lm st qw cw = Ok l -> (0 < l < 1)%R.
Proof.
  unfold analyze_with_lm; destruct (lm st) as [m|]; [|discriminate].
  destruct (forward m _) as [qf|]; simpl; [|discriminate].
  destruct (forward m _) as [cf|]; simpl; [|discriminate].
  intros H; injection H as <-; apply lm_similarity_range.
Qed.

Lemma score_candidate_le_1 (st : CommandSearcher) (qw : list string)
      (idx : nat) (s : R) :
  score_candidate st qw idx = Ok s -> (s <= 1)%R.
Proof.
  unfold score_candidate.
  destruct (py_index (command_keywords st) idx) as [cw|]; simpl; [|discriminate].
  destruct (analyze_with_lm st qw cw) as [l|] eqn:El; simpl; [|discriminate].
  intros H; injection H as <-.
  apply analyze_with_lm_range in El.
  apply combine_score_le_1; [lra | apply coverage_range | apply density_range].
Qed.

Lemma heappush_Forall (P : entry -> Prop) (heap : list entry) (x : entry) :
  Forall P heap -> P x -> Forall P (heappush heap x).
Proof.
  intros Hh Hx; apply Forall_forall; intros e He.
  apply heappush_In in He as [He|He].
  - eapply Forall_forall in Hh; eauto.
  - subst; exact Hx.
Qed.

Lemma score_loop_Forall (P : entry -> Prop) (st : CommandSearcher)
      (qw : list string) (cands : list nat) (heap h : list entry) :
  score_loop st qw cands heap = Ok h ->
  Forall P heap ->
  (forall idx s, In idx cands -> score_candidate st qw idx = Ok s ->
                 (0.3 < s)%R -> P ((- s)%R, idx)) ->
  Forall P h.
Proof.
  revert heap; induction cands as [|idx cands IH]; intros heap Hl Hh Hstep;
    simpl in Hl.
  - injection Hl as <-; exact Hh.
  - destruct (score_candidate st qw idx) as [s|] eqn:Es; simpl in Hl;
      [|discriminate].
    apply IH in Hl; [exact Hl| |intros; apply Hstep; simpl; auto].
    unfold Rltb in *; destruct (Rlt_dec 0.3 s) as [Hs|Hs]; [|exact Hh].
    apply heappush_Forall; [exact Hh|].
    apply Hstep; simpl; auto.
Qed.

(** The shape of a normal return of [search]. *)
Lemma search_Ok_inv correction WRatio (st : CommandSearcher) (query : string)
      (commands : list Cmd) (res : list (Cmd * R)) :
  search correction WRatio st query commands = Ok res ->
  res = [] \/
  exists qw h,
    process_words correction WRatio st (tokenize query) = Ok qw /\
    qw <> [] /\
    score_loop st qw (find_candidates st qw) [] = Ok h /\
    map_res (emit commands) (firstn 3 (sort_by_key h)) = Ok res.
Proof.
  unfold search.
  destruct (is_empty (PyStr.strip_ws query)).
  { intros H; injection H as <-; auto. }
  destruct (process_words correction WRatio st (tokenize query)) as [qw|e] eqn:Eq;
    simpl; [|discriminate].
  destruct qw as [|w qw'].
  { intros H; injection H as <-; auto. }
  destruct (score_loop st _ _ []) as [h|e] eqn:Eh; simpl; [|discriminate].
  intros H; right; exists (w :: qw'), h; repeat split; auto; discriminate.
Qed.

Lemma emit_entries (commands : list Cmd) (xs : list entry) (ys : list (Cmd * R))
      (y : Cmd * R) :
  map_res (emit commands) xs = Ok ys -> In y ys ->
  exists p, In p xs /\ nth_error commands (snd p) = Some (fst y) /\
            snd y = (- fst p)%R.
Proof.
  intros H Hy; apply map_res_Forall2 in H.
  induction H as [|x y' xs ys Hxy _ IH]; [destruct Hy|].
  destruct Hy as [<-|Hy].
  - exists x; split; [left; reflexivity | apply emit_spec, Hxy].
  - destruct (IH Hy) as (p & Hp & E); exists p; split; [right; exact Hp | exact E].
Qed.

Lemma firstn_In_ {A} (n : nat) (l : list A) (x : A) :
  In x (firstn n l) -> In x l.
Proof.
  intros H; rewrite <- (firstn_skipn n l); apply in_app_iff; left; exact H.
Qed.

(** ** Comparisons and normal returns *)

Lemma Rltb_irrefl (x : R) : Rltb x x = false.
Proof. unfold Rltb; destruct (Rlt_dec x x); [lra | reflexivity]. Qed.

Lemma Reqb_refl (x : R) : Reqb x x = true.
Proof. unfold Reqb; destruct (Req_dec_T x x); [reflexivity | congruence]. Qed.

Lemma Rltb_true (x y : R) : (x < y)%R -> Rltb x y = true.
Proof. unfold Rltb; destruct (Rlt_dec x y); [reflexivity | contradiction]. Qed.

Lemma map_res_total {A B} (f : A -> result B) (xs : list A) :
  (forall x, exists y, f x = Ok y) -> exists ys, map_res f xs = Ok ys.
Proof.
  intros Hf; induction xs as [|x xs [ys IH]]; simpl; [eexists; reflexivity|].
  destruct (Hf x) as [y Hy]; rewrite Hy; simpl; rewrite IH; simpl.
  eexists; reflexivity.
Qed.

Lemma gather_Ok (m : MicroLanguageModel) (ids : list nat) :
  (0 < length (embeddings m))%nat -> exists rows, gather m ids = Ok rows.
Proof.
  intros Hn; unfold gather; apply map_res_total; intros i.
  destruct (length (embeddings m)) as [|k] eqn:Ek; [lia|].
  unfold py_index.
  destruct (nth_error (embeddings m) (Nat.modulo i (S k))) as [row|] eqn:E.
  - eexists; reflexivity.
  - apply nth_error_None in E.
    pose proof (Nat.mod_upper_bound i (S k) ltac:(lia)); lia.
Qed.

Lemma forward_Ok (m : MicroLanguageModel) (ids : list nat) :
  (0 < length (embeddings m))%nat -> exists v, forward m ids = Ok v.
Proof.
  intros Hn; destruct ids as [|i ids]; simpl; [eexists; reflexivity|].
  destruct (gather_Ok m (i :: ids) Hn) as [rows Hr]; rewrite Hr.
  simpl; eexists; reflexivity.
Qed.

Lemma analyze_with_lm_Ok (st : CommandSearcher) (m : MicroLanguageModel)
      (qw cw : list string) :
  lm st = Some m -> (0 < length (embeddings m))%nat ->
  exists l, analyze_with_lm st qw cw = Ok l.
Proof.
  intros Hm Hn; unfold analyze_with_lm; rewrite Hm.
  destruct (forward_Ok m (get_word_indices st qw) Hn) as [qf Hq]; rewrite Hq.
  destruct (forward_Ok m (get_word_indices st cw) Hn) as [cf Hc]; rewrite Hc.
  simpl; eexists; reflexivity.
Qed.

(** ** Spelling correction on an empty vocabulary *)

Lemma correct_spelling_empty_vocab default_words correction WRatio random_lm
      (word : string) :
  correct_spelling correction WRatio
    (build_index random_lm (init default_words) []) word = Err TypeError.
Proof.
  unfold correct_spelling; cbn.
  destruct (correction _ word) as [c|]; [|reflexivity].
  destruct (negb (String.eqb c "")); reflexivity.
Qed.

(** ** Blank queries *)

Lemma lstrip_list_all (p : ascii -> bool) (l : list ascii) :
  forallb p l = true -> PyStr.lstrip_list p l = [].
Proof.
  induction l as [|c l IH]; simpl; [reflexivity|].
  destruct (p c); simpl; [exact IH | discriminate].
Qed.

Lemma strip_ws_blank (q : string) :
  forallb PyStr.is_space (PyStr.to_list q) = true -> PyStr.strip_ws q = "".
Proof.
  intros H; unfold PyStr.strip_ws, PyStr.strip_by.
  rewrite (lstrip_list_all _ _ H); reflexivity.
Qed.

(** ** The inverted index *)

Lemma nat_set_add_In (n x : nat) (s : list nat) :
  In x (nat_set_add n s) <-> x = n \/ In x s.
Proof.
  induction s as [|m s IH]; simpl; [intuition congruence|].
  destruct (Nat.eqb_spec n m) as [->|Hnm]; simpl; [intuition congruence|].
  destruct (n <? m); simpl; rewrite ?IH; intuition congruence.
Qed.

Lemma nat_set_update_In (s xs : list nat) (x : nat) :
  In x (nat_set_update s xs) <-> In x s \/ In x xs.
Proof.
  unfold nat_set_update; revert s; induction xs as [|y xs IH]; intros s; simpl.
  - tauto.
  - rewrite IH, nat_set_add_In; intuition congruence.
Qed.

Lemma lookup_wi_add (w w' : string) (i : nat) (wi : list (string * list nat)) :
  lookup w (wi_add w' i wi) =
  if String.eqb w w'
  then Some (nat_set_add i (match lookup w wi with Some s => s | None => [] end))
  else lookup w wi.
Proof.
  induction wi as [|[k s] wi IH]; simpl.
  - destruct (String.eqb w w'); reflexivity.
  - destruct (String.eqb_spec k w') as [->|Hk]; simpl.
    + destruct (String.eqb w w'); reflexivity.
    + rewrite IH.
      destruct (String.eqb_spec w k) as [->|Hwk];
        destruct (String.eqb_spec k w') as [E|_]; try congruence;
        destruct (String.eqb_spec w w') as [E'|_]; congruence.
Qed.

Section IndexInvariant.

Variable catalog : list Cmd.

(** Every position stored under a word holds a record having that word. *)
Definition index_sound (wi : list (string * list nat)) : Prop :=
  forall w s, lookup w wi = Some s -> forall idx, In idx s ->
    exists cmd, nth_error catalog idx = Some cmd /\
                In w (tokenize (search_text cmd)).

Lemma index_sound_nil : index_sound [].
Proof. intros w s H; discriminate. Qed.

Lemma index_sound_add_words (i : nat) (cmd : Cmd) (words : list string)
      (wi : list (string * list nat)) :
  nth_error catalog i = Some cmd ->
  (forall w, In w words -> In w (tokenize (search_text cmd))) ->
  index_sound wi ->
  index_sound (fold_left (fun wi word => wi_add word i wi) words wi).
Proof.
  intros Hi; revert wi; induction words as [|word words IH];
    intros wi Hw Hs; simpl; [exact Hs|].
  apply IH; [intros w Hin; apply Hw; simpl; auto|].
  intros w s Hl idx Hidx.
  rewrite lookup_wi_add in Hl.
  destruct (String.eqb_spec w word) as [->|Hne].
  - injection Hl as <-; apply nat_set_add_In in Hidx as [->|Hidx].
    + exists cmd; split; [exact Hi | apply Hw; simpl; auto].
    + destruct (lookup word wi) as [s0|] eqn:E; [|destruct Hidx].
      exact (Hs word s0 E idx Hidx).
  - exact (Hs w s Hl idx Hidx).
Qed.

Lemma combine_seq_nth (k : nat) (l : list Cmd) (i : nat) (cmd : Cmd) :
  In (i, cmd) (combine (seq k (length l)) l) ->
  (k <= i)%nat /\ nth_error l (i - k) = Some cmd.
Proof.
  revert k; induction l as [|c l IH]; intros k; simpl; [intros []|].
  intros [E|H].
  - injection E as -> ->; rewrite Nat.sub_diag; auto.
  - apply IH in H as [Hk H]; split; [lia|].
    replace (i - k)%nat with (S (i - S k)) by lia; exact H.
Qed.

Lemma build_command_index_sound :
  index_sound (fst (build_command_index catalog)).
Proof.
  unfold build_command_index.
  assert (Hps : forall i cmd,
             In (i, cmd) (combine (seq 0 (length catalog)) catalog) ->
             nth_error catalog i = Some cmd).
  { intros i cmd H; apply combine_seq_nth in H as [_ H].
    rewrite Nat.sub_0_r in H; exact H. }
  revert Hps.
  generalize (combine (seq 0 (length catalog)) catalog) as ps.
  enough (H : forall ps acc,
             (forall i cmd, In (i, cmd) ps -> nth_error catalog i = Some cmd) ->
             index_sound (fst acc) ->
             index_sound
               (fst (fold_left
                       (fun acc p =>
                          let words := tokenize (search_text (snd p)) in
                          (fold_left (fun wi word => wi_add word (fst p) wi)
                                     words (fst acc),
                           (snd acc ++ [str_set_of words])%list))
                       ps acc)))
    by (intros ps Hps; apply H; [exact Hps | exact index_sound_nil]).
  induction ps as [|[i cmd] ps IH]; intros acc Hps Hacc; simpl; [exact Hacc|].
  apply IH; [intros; apply Hps; simpl; auto|].
  simpl; apply index_sound_add_words with (cmd := cmd); auto.
  apply Hps; simpl; auto.
Qed.

End IndexInvariant.

Lemma find_candidates_In (st : CommandSearcher) (qw : list string) (idx : nat) :
  In idx (find_candidates st qw) ->
  exists w s, In w qw /\ lookup w (word_index st) = Some s /\ In idx s.
Proof.
  unfold find_candidates.
  enough (H : forall acc,
             In idx (fold_left
                       (fun acc word =>
                          nat_set_update acc
                            (match lookup word (word_index st) with
                             | Some s => s | None => [] end)) qw acc) ->
             In idx acc \/
             exists w s, In w qw /\ lookup w (word_index st) = Some s /\ In idx s)
    by (intros Hin; destruct (H [] Hin) as [[]|E]; exact E).
  induction qw as [|w qw IH]; intros acc Hin; simpl in Hin; [auto|].
  apply IH in Hin as [Hin|(w' & s & Hw & Hl & Hs)].
  - apply nat_set_update_In in Hin as [Hin|Hin]; [auto|].
    destruct (lookup w (word_index st)) as [s|] eqn:E; [|destruct Hin].
    right; exists w, s; simpl; auto.
  - right; exists w', s; simpl; auto.
Qed.

(** ** Spelling correction on a non-empty vocabulary *)

Lemma extract_one_go_best WRatio (q b0 : string) (cs : list string) :
  exists b,
    extract_one_go WRatio q (Some (b0, WRatio q b0)) cs = Some (b, WRatio q b) /\
    (b = b0 \/ In b cs) /\ (WRatio q b0 <= WRatio q b)%R /\
    (forall x, In x cs -> (WRatio q x <= WRatio q b)%R).
Proof.
  revert b0; induction cs as [|c cs IH]; intros b0; simpl.
  - exists b0; repeat split; auto; [lra | intros x []].
  - unfold Rltb; destruct (Rlt_dec (WRatio q b0) (WRatio q c)) as [Hlt|Hge].
    + destruct (IH c) as (b & E & Hb & Hcb & Hx); exists b.
      repeat split; [exact E | simpl; intuition congruence | lra |].
      intros x [<-|Hin]; [exact Hcb | apply Hx, Hin].
    + destruct (IH b0) as (b & E & Hb & Hcb & Hx); exists b.
      repeat split; [exact E | simpl; tauto | exact Hcb |].
      intros x [<-|Hin]; [lra | apply Hx, Hin].
Qed.

(** On a non-empty vocabulary, a token that is neither in the vocabulary nor
    correctable by the dictionary is replaced by a best [WRatio] match when
    its score exceeds 80, and kept otherwise. *)
Lemma correct_spelling_fallback correction WRatio (st : CommandSearcher)
      (word : string) :
  all_words st <> [] ->
  in_vocab st word = false ->
  (forall c, correction (known_words st) word = Some c ->
             negb (String.eqb c "") && in_vocab st c = false) ->
  exists b,
    In b (all_words st) /\
    (forall x, In x (all_words st) -> (WRatio word x <= WRatio word b)%R) /\
    correct_spelling correction WRatio st word =
      Ok (if Rltb 80 (WRatio word b) then b else word).
Proof.
  intros Hne Hw Hc.
  destruct (all_words st) as [|c0 cs] eqn:Ea; [congruence|].
  destruct (extract_one_go_best WRatio word c0 cs) as (b & E & Hb & H0 & Hx).
  exists b; split; [simpl; destruct Hb; auto|].
  split; [intros x [<-|Hin]; [exact H0 | apply Hx, Hin]|].
  unfold correct_spelling; rewrite Hw, Ea.
  unfold extract_one; cbn [extract_one_go]; rewrite E.
  destruct (correction (known_words st) word) as [c|] eqn:Ec; [|reflexivity].
  rewrite (Hc c eq_refl); reflexivity.
Qed.

(* ================================================================== *)
(** * Claims *)

(** C3: for every query and catalog, every [(record, score)] pair that
    [search] returns has [0.3 < score <= 1.0]. *)
Theorem search_scores_in_range correction WRatio (st : CommandSearcher)
        (query : string) (commands : list Cmd) :
  match search correction WRatio st query commands with
  | Ok res => Forall (fun p => (0.3 < snd p <= 1)%R) res
  | Err _ => True
  end.
Proof.
  destruct (search correction WRatio st query commands) as [res|e] eqn:E;
    [|exact I].
  apply search_Ok_inv in E as [->|(qw & h & _ & _ & Hl & Hm)]; [constructor|].
  assert (Hh : Forall (fun e => (0.3 < - fst e <= 1)%R) h).
  { eapply score_loop_Forall; [exact Hl | constructor |].
    intros idx s _ Hs Hgt; simpl; rewrite Ropp_involutive; split;
      [exact Hgt | eapply score_candidate_le_1; exact Hs]. }
  apply Forall_forall; intros y Hy.
  destruct (emit_entries _ _ _ _ Hm Hy) as (p & Hp & _ & ->).
  apply firstn_In_ in Hp.
  apply (proj1 (sort_by_key_In _ _)) in Hp.
  eapply Forall_forall in Hh; [exact Hh | exact Hp].
Qed.

(** C4 (as amended): the list [search] returns has at most 3 entries and its
    scores are in non-increasing order (equal scores may be adjacent). *)
Theorem search_top3_non_increasing correction WRatio (st : CommandSearcher)
        (query : string) (commands : list Cmd) :
  match search correction WRatio st query commands with
  | Ok res => (length res <= 3)%nat /\ non_increasing (map snd res)
  | Err _ => True
  end.
Proof.
  destruct (search correction WRatio st query commands) as [res|e] eqn:E;
    [|exact I].
  apply search_Ok_inv in E as [->|(qw & h & _ & _ & _ & Hm)];
    [simpl; split; [lia | exact I]|].
  split.
  - apply map_res_Forall2, Forall2_length in Hm.
    rewrite <- Hm; apply firstn_le_length.
  - rewrite (emit_scores _ _ _ Hm).
    apply ascending_to_non_increasing, keys_ascending_firstn,
      sort_by_key_ascending.
Qed.

(** C4 (as stated, refuted): on the catalog [twin_catalog] the query
    ["list files"] returns both records with the same score, so the scores
    are not strictly decreasing. *)
Lemma search_tie_not_strict :
  match search Concrete.no_correction Concrete.zero_ratio Concrete.twin_built
               "list files" Concrete.twin_catalog with
  | Ok res => ~ strictly_decreasing (map snd res)
  | Err _ => False
  end.
Proof.
  set (qw := ["list"; "files"]).
  set (kw := ["list"; "files"]).
  assert (Hq : process_words Concrete.no_correction Concrete.zero_ratio
                 Concrete.twin_built (tokenize "list files") = Ok qw)
    by (vm_compute; reflexivity).
  assert (Hc : find_candidates Concrete.twin_built qw = [0; 1]%nat)
    by (vm_compute; reflexivity).
  assert (Hk0 : py_index (command_keywords Concrete.twin_built) 0 = Ok kw)
    by (vm_compute; reflexivity).
  assert (Hk1 : py_index (command_keywords Concrete.twin_built) 1 = Ok kw)
    by (vm_compute; reflexivity).
  assert (Hlm : lm Concrete.twin_built =
                Some (Concrete.zero_lm (length (all_words Concrete.twin_built))))
    by reflexivity.
  assert (Hlen : length (embeddings
                   (Concrete.zero_lm (length (all_words Concrete.twin_built))))
                 = 2%nat)
    by (vm_compute; reflexivity).
  destruct (analyze_with_lm_Ok Concrete.twin_built _ qw kw Hlm
              ltac:(rewrite Hlen; lia)) as [l Hl].
  pose proof (analyze_with_lm_range _ _ _ _ Hl) as Hlr.
  assert (Hcov : coverage qw kw = 1%R).
  { unfold coverage; replace (inter_card qw kw) with 2%nat
      by (vm_compute; reflexivity).
    simpl; field. }
  pose proof (density_range qw kw) as Hden.
  set (s := combine_score l (coverage qw kw) (density qw kw)).
  assert (Hs : (0.3 < s)%R) by (unfold s, combine_score; rewrite Hcov; lra).
  assert (E0 : score_candidate Concrete.twin_built qw 0 = Ok s)
    by (unfold score_candidate; rewrite Hk0; cbn [bind]; rewrite Hl; reflexivity).
  assert (E1 : score_candidate Concrete.twin_built qw 1 = Ok s)
    by (unfold score_candidate; rewrite Hk1; cbn [bind]; rewrite Hl; reflexivity).
  clearbody s.
  unfold search.
  replace (is_empty (PyStr.strip_ws "list files")) with false
    by (vm_compute; reflexivity).
  rewrite Hq; unfold qw at 1; cbn [bind].
  fold qw; rewrite Hc; cbn [score_loop]; rewrite E0; cbn [bind].
  rewrite E1; cbn [bind score_loop].
  rewrite (Rltb_true _ _ Hs).
  unfold heappush; cbn -[Rltb Reqb].
  unfold tuple_lt; cbn [fst snd].
  rewrite Rltb_irrefl, Reqb_refl; cbn -[Rltb Reqb].
  unfold sort_by_key; cbn -[Rltb Reqb].
  rewrite Rltb_irrefl; cbn -[Rltb Reqb].
  intros [H _]; lra.
Qed.

(** C1 (code bug): after [build_index([])] the vocabulary is empty, and
    [search("ssh key", [])] does not return [[]]: the fallback of
    [_correct_spelling] unpacks the [None] that [process.extractOne] returns
    for an empty choice list, raising [TypeError]. *)
Theorem search_empty_catalog_raises default_words correction WRatio random_lm :
  search correction WRatio (build_index random_lm (init default_words) [])
         "ssh key" [] = Err TypeError.
Proof.
  unfold search.
  replace (is_empty (PyStr.strip_ws "ssh key")) with false
    by (vm_compute; reflexivity).
  replace (tokenize "ssh key") with ["ssh"; "key"] by (vm_compute; reflexivity).
  cbn [process_words].
  rewrite correct_spelling_empty_vocab; reflexivity.
Qed.

(** C7 (code bug): with an empty vocabulary, [_correct_spelling] neither
    returns a match nor the original token: it raises [TypeError] (the same
    defect as C1). *)
Theorem correct_spelling_empty_vocab_raises default_words correction WRatio
        random_lm :
  correct_spelling correction WRatio
    (build_index random_lm (init default_words) []) "ssh" = Err TypeError.
Proof. apply correct_spelling_empty_vocab. Qed.

(** C8: an empty or whitespace-only query makes [search] return [[]]. *)
Theorem search_blank_query correction WRatio (st : CommandSearcher)
        (query : string) (commands : list Cmd) :
  forallb PyStr.is_space (PyStr.to_list query) = true ->
  search correction WRatio st query commands = Ok [].
Proof.
  intros H; unfold search; rewrite (strip_ws_blank _ H); reflexivity.
Qed.

Lemma search_blank_query_witness :
  forallb PyStr.is_space (PyStr.to_list "   ") = true /\
  search Concrete.no_correction Concrete.zero_ratio Concrete.built "   "
         Concrete.default_catalog = Ok [] /\
  search Concrete.no_correction Concrete.zero_ratio Concrete.built ""
         Concrete.default_catalog = Ok [].
Proof.
  split; [reflexivity|].
  split; apply search_blank_query; reflexivity.
Defined.

(** C9 (as stated, refuted): [forward] on an empty id list does not return
    [[1/3, 1/3, 1/3]]. *)
Lemma forward_empty_not_third :
  forward (Concrete.zero_lm 0) [] <> Ok [(/ 3)%R; (/ 3)%R; (/ 3)%R].
Proof.
  simpl; intros H; injection H as E _ _; lra.
Qed.

(** C9 (as amended): [forward] on an empty id list returns the uniform
    vector [[0.33, 0.33, 0.33]], for all parameter values. *)
Theorem forward_empty (m : MicroLanguageModel) :
  forward m [] = Ok [0.33%R; 0.33%R; 0.33%R].
Proof. reflexivity. Qed.

(** C10: on a non-empty id list the attention weight [exp(s)/sum(exp(s))] of
    the single scalar score is 1, so [forward] is the sigmoid of the mean of
    the addressed rows multiplied through the classifier, for all parameter
    values. *)
Theorem forward_attention_identity (m : MicroLanguageModel) (i : nat)
        (ids : list nat) :
  forward m (i :: ids) = forward_without_attention m (i :: ids).
Proof.
  unfold forward, forward_without_attention.
  destruct (gather m (i :: ids)) as [rows|e]; cbn [bind]; [|reflexivity].
  set (s := dot (mean_rows rows) (attention_weights m)).
  assert (E : (exp s / exp s = 1)%R)
    by (apply Rdiv_diag; apply Rgt_not_eq, exp_pos).
  rewrite E; unfold vscale.
  rewrite (map_ext (fun x => x * 1)%R (fun x => x)) by (intros; ring).
  rewrite map_id; reflexivity.
Qed.

(** C2 (as stated, refuted): after re-indexing, the known words of the
    spell checker still hold a word of the previous catalog ([network]) that
    is not in the new vocabulary. *)
Lemma known_words_carry_over :
  ~ (forall w, In w (known_words Concrete.rebuilt) <->
               In w (build_vocab Concrete.twin_catalog)).
Proof.
  intros H; specialize (H "network").
  assert (Hk : In "network" (known_words Concrete.rebuilt))
    by (apply (proj1 (str_mem_In _ _)); vm_compute; reflexivity).
  apply (proj1 H), (proj2 (str_mem_In _ _)) in Hk.
  vm_compute in Hk; discriminate.
Qed.

(** C2 (as amended): [build_index] adds the vocabulary to the known words the
    spell checker already has ([load_words] does not reset them): a word is
    known afterwards exactly when it was known before (initially the default
    dictionary) or is in the new vocabulary. *)
Theorem build_index_known_words random_lm (st : CommandSearcher)
        (commands : list Cmd) (w : string) :
  In w (known_words (build_index random_lm st commands)) <->
  In w (known_words st) \/ In w (build_vocab commands).
Proof.
  unfold build_index; cbn [known_words]; apply str_set_update_In.
Qed.

(** C5: after [build_index] on a catalog, every candidate position of a
    query is a record whose keyword set shares a corrected query token, and
    every record [search] returns (on that catalog) shares such a token. *)
Theorem search_returns_overlapping_records correction WRatio random_lm
        (st0 : CommandSearcher) (catalog : list Cmd) (query : string) :
  match process_words correction WRatio (build_index random_lm st0 catalog)
                      (tokenize query) with
  | Ok qw =>
      Forall (fun idx => exists cmd w,
                  nth_error catalog idx = Some cmd /\ In w qw /\
                  In w (tokenize (search_text cmd)))
             (find_candidates (build_index random_lm st0 catalog) qw) /\
      match search correction WRatio (build_index random_lm st0 catalog)
                   query catalog with
      | Ok res =>
          Forall (fun p => exists w, In w qw /\
                                     In w (tokenize (search_text (fst p)))) res
      | Err _ => True
      end
  | Err _ => True
  end.
Proof.
  set (st := build_index random_lm st0 catalog).
  destruct (process_words correction WRatio st (tokenize query)) as [qw|e]
    eqn:Eq; [|exact I].
  assert (Hc : Forall (fun idx => exists cmd w,
                  nth_error catalog idx = Some cmd /\ In w qw /\
                  In w (tokenize (search_text cmd)))
             (find_candidates st qw)).
  { apply Forall_forall; intros idx Hidx.
    apply find_candidates_In in Hidx as (w & s & Hw & Hl & Hs).
    destruct (build_command_index_sound catalog w s Hl idx Hs)
      as (cmd & Hcmd & Hwc).
    exists cmd, w; auto. }
  split; [exact Hc|].
  destruct (search correction WRatio st query catalog) as [res|e] eqn:E;
    [|exact I].
  apply search_Ok_inv in E as [->|(qw' & h & Eq' & _ & Hl & Hm)];
    [constructor|].
  rewrite Eq in Eq'; injection Eq' as <-.
  assert (Hh : Forall (fun e => In (snd e) (find_candidates st qw)) h).
  { eapply score_loop_Forall; [exact Hl | constructor |].
    intros idx s Hidx _ _; exact Hidx. }
  apply Forall_forall; intros y Hy.
  destruct (emit_entries _ _ _ _ Hm Hy) as (p & Hp & Hnth & _).
  apply firstn_In_, (proj1 (sort_by_key_In _ _)) in Hp.
  eapply Forall_forall in Hh; [|exact Hp].
  eapply Forall_forall in Hc; [|exact Hh].
  destruct Hc as (cmd & w & Hcmd & Hw & Hwc).
  rewrite Hnth in Hcmd; injection Hcmd as <-.
  exists w; auto.
Qed.

(** C6 (as stated, refuted): the query ["netowrk network"] is corrected to
    the list [["network"; "network"]]; for the candidate record the coverage
    [search] computes is 1/2, not the ratio over distinct tokens (1/1). *)
Lemma coverage_counts_repeated_tokens :
  process_words Concrete.fix_netowrk Concrete.zero_ratio Concrete.network_built
                (tokenize "netowrk network") = Ok ["network"; "network"] /\
  In 0%nat (find_candidates Concrete.network_built ["network"; "network"]) /\
  py_index (command_keywords Concrete.network_built) 0 =
    Ok ["check"; "network"; "ping"] /\
  coverage ["network"; "network"] ["check"; "network"; "ping"] <>
    coverage_over_distinct ["network"; "network"] ["check"; "network"; "ping"].
Proof.
  split; [vm_compute; reflexivity|].
  split; [vm_compute; left; reflexivity|].
  split; [vm_compute; reflexivity|].
  unfold coverage, coverage_over_distinct.
  replace (inter_card _ _) with 1%nat by (vm_compute; reflexivity).
  replace (length (str_set_of _)) with 1%nat by (vm_compute; reflexivity).
  simpl; intros H; field_simplify in H; lra.
Qed.

(** C6 (as amended): for every candidate scored by [search], the coverage is
    the number of distinct corrected query tokens in the record's keyword set
    divided by the length of the corrected-token list (one entry per distinct
    raw query token; two tokens corrected to the same word count twice), and
    it lies in [0,1]. *)
Theorem search_coverage_feature correction WRatio (st : CommandSearcher)
        (query : string) :
  match process_words correction WRatio st (tokenize query) with
  | Ok qw =>
      Forall (fun idx =>
                match py_index (command_keywords st) idx with
                | Ok cw =>
                    coverage qw cw =
                      (INR (length (filter (fun w => str_mem w cw)
                                           (str_set_of qw)))
                       / INR (length qw))%R /\
                    (0 <= coverage qw cw <= 1)%R
                | Err _ => True
                end)
             (find_candidates st qw)
  | Err _ => True
  end.
Proof.
  destruct (process_words correction WRatio st (tokenize query)) as [qw|e];
    [|exact I].
  apply Forall_forall; intros idx _.
  destruct (py_index (command_keywords st) idx) as [cw|e]; [|exact I].
  split; [reflexivity | apply coverage_range].
Qed.

(* ================================================================== *)
(** * Further properties of the code *)

(** ** What [build_index] builds *)

Lemma build_vocab_In (catalog : list Cmd) (w : string) :
  In w (build_vocab catalog) <->
  exists cmd, In cmd catalog /\ In w (tokenize (search_text cmd)).
Proof.
  unfold build_vocab.
  enough (H : forall acc,
             In w (fold_left (fun vocab cmd =>
                      str_set_update vocab (tokenize (search_text cmd))) catalog acc)
             <-> In w acc \/
                 exists cmd, In cmd catalog /\ In w (tokenize (search_text cmd)))
    by (rewrite H; simpl; tauto).
  induction catalog as [|c cat IH]; intros acc; simpl.
  - split; [tauto|]. intros [H|(cmd & [] & _)]; exact H.
  - rewrite IH, str_set_update_In; split.
    + intros [[H|H]|(cmd & Hc & H)]; [tauto| |]; right; eauto.
    + intros [H|(cmd & [<-|Hc] & H)]; [tauto| |]; eauto.
Qed.

Lemma build_vocab_NoDup (catalog : list Cmd) : NoDup (build_vocab catalog).
Proof.
  unfold build_vocab.
  enough (H : forall acc, NoDup acc ->
             NoDup (fold_left (fun vocab cmd =>
                      str_set_update vocab (tokenize (search_text cmd))) catalog acc))
    by (apply H; constructor).
  induction catalog as [|c cat IH]; intros acc Hacc; simpl; [exact Hacc|].
  apply IH, str_set_update_NoDup, Hacc.
Qed.

Lemma lookup_combine_seq (l : list string) (k i : nat) (w : string) :
  NoDup l ->
  lookup w (combine l (seq k (length l))) = Some i <->
  (k <= i)%nat /\ nth_error l (i - k) = Some w.
Proof.
  revert k; induction l as [|x l IH]; intros k Hnd; simpl.
  - split; [discriminate|]. intros [_ H]; destruct (i - k)%nat; discriminate.
  - inversion Hnd as [|? ? Hx Hl]; subst.
    destruct (String.eqb_spec w x) as [->|Hne].
    + split.
      * intros H; injection H as <-; rewrite Nat.sub_diag; auto.
      * intros [Hk H].
        destruct (i - k)%nat as [|j] eqn:Ej; [f_equal; lia|].
        simpl in H; apply nth_error_In in H; contradiction.
    + rewrite IH by exact Hl; split.
      * intros [Hk H]; split; [lia|].
        replace (i - k)%nat with (S (i - S k)) by lia; exact H.
      * intros [Hk H].
        destruct (i - k)%nat as [|j] eqn:Ej; simpl in H; [congruence|].
        split; [lia|]. replace (i - S k)%nat with j by lia; exact H.
Qed.

Lemma map_snd_combine_seq {A} (k : nat) (l : list A) :
  map snd (combine (seq k (length l)) l) = l.
Proof.
  revert k; induction l as [|x l IH]; intros k; simpl; [reflexivity|].
  rewrite IH; reflexivity.
Qed.

Lemma build_keywords (catalog : list Cmd) :
  snd (build_command_index catalog) =
  map (fun cmd => str_set_of (tokenize (search_text cmd))) catalog.
Proof.
  unfold build_command_index.
  enough (H : forall ps acc,
             snd (fold_left
                    (fun acc p =>
                       let words := tokenize (search_text (snd p)) in
                       (fold_left (fun wi word => wi_add word (fst p) wi)
                                  words (fst acc),
                        (snd acc ++ [str_set_of words])%list)) ps acc) =
             (snd acc ++ map (fun p => str_set_of (tokenize (search_text (snd p)))) ps)%list).
  { rewrite H; simpl.
    assert (E : forall ps : list (nat * Cmd),
               map (fun p => str_set_of (tokenize (search_text (snd p)))) ps =
               map (fun cmd => str_set_of (tokenize (search_text cmd)))
                   (map snd ps))
      by (intros; rewrite map_map; reflexivity).
    rewrite E, map_snd_combine_seq; reflexivity. }
  induction ps as [|p ps IH]; intros acc; simpl.
  - rewrite app_nil_r; reflexivity.
  - rewrite IH; simpl; rewrite <- app_assoc; reflexivity.
Qed.

Lemma wi_fold_keep (words : list string) (i j : nat) (w : string)
      (wi : list (string * list nat)) :
  (exists s, lookup w wi = Some s /\ In j s) ->
  exists s, lookup w (fold_left (fun wi word => wi_add word i wi) words wi)
            = Some s /\ In j s.
Proof.
  revert wi; induction words as [|word words IH]; intros wi H; simpl; [exact H|].
  apply IH; destruct H as (s & Hl & Hj).
  rewrite lookup_wi_add, Hl.
  destruct (String.eqb w word); eexists; split; try reflexivity;
    [apply nat_set_add_In; right|]; exact Hj.
Qed.

Lemma wi_fold_add (words : list string) (i : nat) (w : string)
      (wi : list (string * list nat)) :
  In w words ->
  exists s, lookup w (fold_left (fun wi word => wi_add word i wi) words wi)
            = Some s /\ In i s.
Proof.
  revert wi; induction words as [|word words IH]; intros wi H; simpl; [destruct H|].
  destruct H as [->|H]; [|apply IH, H].
  apply wi_fold_keep; rewrite lookup_wi_add, String.eqb_refl.
  eexists; split; [reflexivity | apply nat_set_add_In; left; reflexivity].
Qed.

Lemma build_command_index_complete_gen (ps : list (nat * Cmd))
      (acc : list (string * list nat) * list (list string)) (w : string) (j : nat) :
  (exists s, lookup w (fst acc) = Some s /\ In j s) \/
  (exists cmd, In (j, cmd) ps /\ In w (tokenize (search_text cmd))) ->
  exists s,
    lookup w (fst (fold_left
                     (fun acc p =>
                        let words := tokenize (search_text (snd p)) in
                        (fold_left (fun wi word => wi_add word (fst p) wi)
                                   words (fst acc),
                         (snd acc ++ [str_set_of words])%list)) ps acc))
    = Some s /\ In j s.
Proof.
  revert acc; induction ps as [|[i cmd] ps IH]; intros acc H; simpl.
  - destruct H as [H|(cmd & [] & _)]; exact H.
  - apply IH; simpl.
    destruct H as [H|(cmd' & [E|Hin] & Hw)].
    + left; apply wi_fold_keep, H.
    + injection E as -> ->; left; apply wi_fold_add, Hw.
    + right; eauto.
Qed.

Lemma nth_error_combine_seq {A} (k i : nat) (l : list A) (c : A) :
  nth_error l i = Some c -> In (k + i, c)%nat (combine (seq k (length l)) l).
Proof.
  revert k i; induction l as [|x l IH]; intros k [|i] H; simpl in *;
    try discriminate.
  - injection H as ->; left; f_equal; lia.
  - right; replace (k + S i)%nat with (S k + i)%nat by lia; apply IH, H.
Qed.

Lemma word_index_built random_lm (st0 : CommandSearcher)
        (catalog : list Cmd) (w : string) (i : nat) :
  (exists s, lookup w (word_index (build_index random_lm st0 catalog)) = Some s
             /\ In i s) <->
  (exists cmd, nth_error catalog i = Some cmd /\
               In w (tokenize (search_text cmd))).
Proof.
  cbn [build_index word_index]; split.
  - intros (s & Hl & Hi); exact (build_command_index_sound catalog w s Hl i Hi).
  - intros (cmd & Hc & Hw); unfold build_command_index.
    apply build_command_index_complete_gen; right; exists cmd; split; [|exact Hw].
    apply (nth_error_combine_seq 0 i catalog cmd Hc).
Qed.

(** X1: the inverted index of [build_index] is exact: position [i] is
    stored under word [w] exactly when the [i]-th record of the catalog has
    [w] among the tokens of its searchable text. *)
Theorem build_index_word_index_exact random_lm (st0 : CommandSearcher)
        (catalog : list Cmd) (w : string) (i : nat) :
  (exists s, lookup w (word_index (build_index random_lm st0 catalog)) = Some s
             /\ In i s) <->
  (exists cmd, nth_error catalog i = Some cmd /\
               In w (tokenize (search_text cmd))).
Proof. exact (word_index_built random_lm st0 catalog w i). Qed.

Lemma word_to_idx_built random_lm (st0 : CommandSearcher) (catalog : list Cmd)
      (w : string) (i : nat) :
  lookup w (word_to_idx (build_index random_lm st0 catalog)) = Some i <->
  nth_error (build_vocab catalog) i = Some w.
Proof.
  cbn [build_index word_to_idx].
  rewrite lookup_combine_seq by apply build_vocab_NoDup.
  rewrite Nat.sub_0_r; split; [tauto|]; intros H; split; [lia | exact H].
Qed.

(** X2: the vocabulary [all_words] built by [build_index] holds each token of
    the catalog's searchable texts exactly once, and [word_to_idx] is its
    inverse: [word_to_idx[w] == i] exactly when [all_words[i] == w]. *)
Theorem build_index_vocabulary random_lm (st0 : CommandSearcher)
        (catalog : list Cmd) :
  let st := build_index random_lm st0 catalog in
  NoDup (all_words st) /\
  (forall w, In w (all_words st) <->
             exists cmd, In cmd catalog /\ In w (tokenize (search_text cmd))) /\
  (forall w i, lookup w (word_to_idx st) = Some i <->
               nth_error (all_words st) i = Some w).
Proof.
  cbn [build_index all_words word_to_idx].
  split; [apply build_vocab_NoDup|].
  split; [intros w; apply build_vocab_In|].
  intros w i; exact (word_to_idx_built random_lm st0 catalog w i).
Qed.

(** ** Candidates, corrections and the scores of [search] *)

Lemma find_candidates_complete (st : CommandSearcher) (qw : list string)
      (idx : nat) (w : string) (s : list nat) :
  In w qw -> lookup w (word_index st) = Some s -> In idx s ->
  In idx (find_candidates st qw).
Proof.
  unfold find_candidates.
  enough (H : forall acc,
             In idx acc \/ (In w qw /\ lookup w (word_index st) = Some s /\ In idx s) ->
             In idx (fold_left
                       (fun acc word =>
                          nat_set_update acc
                            (match lookup word (word_index st) with
                             | Some s => s | None => [] end)) qw acc))
    by (intros; apply H; right; auto).
  induction qw as [|x qw IH]; intros acc Hacc; simpl.
  - destruct Hacc as [H|([] & _)]; exact H.
  - apply IH; rewrite nat_set_update_In.
    destruct Hacc as [H|([->|Hw] & Hl & Hi)]; [tauto| |tauto].
    rewrite Hl; tauto.
Qed.

(** X3: after [build_index] on a catalog, the candidate positions of
    [search] for corrected tokens [qw] are exactly the positions of records
    sharing a token with [qw]. *)
Theorem find_candidates_exact random_lm (st0 : CommandSearcher)
        (catalog : list Cmd) (qw : list string) (idx : nat) :
  In idx (find_candidates (build_index random_lm st0 catalog) qw) <->
  exists cmd w, nth_error catalog idx = Some cmd /\ In w qw /\
                In w (tokenize (search_text cmd)).
Proof.
  split.
  - intros H; apply find_candidates_In in H as (w & s & Hw & Hl & Hs).
    destruct (proj1 (word_index_built random_lm st0 catalog w idx)
                (ex_intro _ s (conj Hl Hs))) as (cmd & Hc & Hwc).
    exists cmd, w; auto.
  - intros (cmd & w & Hc & Hw & Hwc).
    destruct (proj2 (word_index_built random_lm st0 catalog w idx)
                (ex_intro _ cmd (conj Hc Hwc))) as (s & Hl & Hs).
    exact (find_candidates_complete _ _ _ _ _ Hw Hl Hs).
Qed.

Lemma in_vocab_built random_lm (st0 : CommandSearcher) (catalog : list Cmd)
      (w : string) :
  in_vocab (build_index random_lm st0 catalog) w = true <->
  In w (build_vocab catalog).
Proof.
  unfold in_vocab.
  destruct (lookup w (word_to_idx (build_index random_lm st0 catalog)))
    as [i|] eqn:E; split; intros H; try discriminate; try reflexivity.
  - apply (proj1 (word_to_idx_built random_lm st0 catalog w i)) in E.
    apply nth_error_In in E; exact E.
  - apply In_nth_error in H as [i Hi].
    apply (proj2 (word_to_idx_built random_lm st0 catalog w i)) in Hi.
    rewrite Hi in E; discriminate.
Qed.

Lemma extract_one_In WRatio (q : string) (choices : list string) (b : string)
      (sb : R) :
  extract_one WRatio q choices = Some (b, sb) -> In b choices.
Proof.
  unfold extract_one; destruct choices as [|c cs]; simpl; [discriminate|].
  destruct (extract_one_go_best WRatio q c cs) as (b' & E & Hb & _).
  rewrite E; intros H; injection H as <- _; simpl; destruct Hb; auto.
Qed.

(** X4: on an index built from a catalog, [_correct_spelling] returns either
    the token itself or a word of the vocabulary; a token already in the
    vocabulary is returned unchanged. *)
Theorem correct_spelling_result correction WRatio random_lm
        (st0 : CommandSearcher) (catalog : list Cmd) (word : string) :
  match correct_spelling correction WRatio
          (build_index random_lm st0 catalog) word with
  | Ok r => (r = word \/ In r (build_vocab catalog)) /\
            (In word (build_vocab catalog) -> r = word)
  | Err _ => True
  end.
Proof.
  set (st := build_index random_lm st0 catalog).
  destruct (correct_spelling correction WRatio st word) as [r|e] eqn:E;
    [|exact I].
  unfold correct_spelling in E.
  destruct (in_vocab st word) eqn:Hw.
  { injection E as <-; auto. }
  split; [|intros Hin; apply (in_vocab_built random_lm st0) in Hin;
             unfold st in Hw; congruence].
  assert (Hfb : forall r',
             match extract_one WRatio word (all_words st) with
             | Some (best_match, score) =>
                 Ok (if Rltb 80 score then best_match else word)
             | None => Err TypeError
             end = Ok r' -> r' = word \/ In r' (build_vocab catalog)).
  { intros r' H.
    destruct (extract_one WRatio word (all_words st)) as [[b sb]|] eqn:Ex;
      [|discriminate].
    injection H as <-; destruct (Rltb 80 sb); [right|left; reflexivity].
    apply extract_one_In in Ex; exact Ex. }
  destruct (correction (known_words st) word) as [c|]; [|exact (Hfb r E)].
  destruct (negb (String.eqb c "") && in_vocab st c) eqn:Hc; [|exact (Hfb r E)].
  injection E as <-; right.
  apply andb_prop in Hc as [_ Hc]; apply (in_vocab_built random_lm st0), Hc.
Qed.

Lemma sigmoid_pos (x : R) : (0 < sigmoid x)%R.
Proof.
  unfold sigmoid; pose proof (exp_pos (- x)).
  apply Rdiv_lt_0_compat; lra.
Qed.

Lemma forward_pos (m : MicroLanguageModel) (ids : list nat) (v : list R) :
  forward m ids = Ok v -> Forall (fun x => (0 < x)%R) v.
Proof.
  destruct ids as [|i ids]; simpl.
  - intros H; injection H as <-; repeat constructor; lra.
  - destruct (gather m (i :: ids)) as [rows|e]; simpl; [|discriminate].
    intros H; injection H as <-.
    apply Forall_forall; intros x Hx; apply in_map_iff in Hx as (y & <- & _).
    apply sigmoid_pos.
Qed.

Lemma dot_pos_nonneg (a b : list R) :
  Forall (fun x => (0 < x)%R) a -> Forall (fun x => (0 < x)%R) b ->
  (0 <= dot a b)%R.
Proof.
  revert b; induction a as [|x a IH]; intros [|y b] Ha Hb; simpl; try lra.
  inversion Ha; inversion Hb; subst.
  pose proof (IH b ltac:(assumption) ltac:(assumption)); nra.
Qed.

Lemma analyze_with_lm_ge_half (st : CommandSearcher) (qw cw : list string)
      (l : R) :
  analyze_with_lm st qw cw = Ok l -> (1 / 2 <= l)%R.
Proof.
  intros E.
  unfold analyze_with_lm in E; destruct (lm st) as [m|]; [|discriminate].
  destruct (forward m (get_word_indices st qw)) as [qf|] eqn:Eq; simpl in E;
    [|discriminate].
  destruct (forward m (get_word_indices st cw)) as [cf|] eqn:Ec; simpl in E;
    [|discriminate].
  injection E as <-.
  pose proof (dot_pos_nonneg qf cf (forward_pos _ _ _ Eq) (forward_pos _ _ _ Ec)).
  unfold lm_similarity.
  assert (0 <= norm qf)%R by apply sqrt_pos.
  assert (0 <= norm cf)%R by apply sqrt_pos.
  assert (0 <= dot qf cf / (norm qf * norm cf + 1e-6))%R
    by (unfold Rdiv; apply Rmult_le_pos; [lra | left; apply Rinv_0_lt_compat; nra]).
  lra.
Qed.

(** X5: the relevance [_analyze_with_lm] computes lies in [[0.5, 1)]: both
    feature vectors have positive entries (sigmoid outputs or [0.33]), so the
    cosine is non-negative. *)
Theorem analyze_with_lm_half (st : CommandSearcher) (qw cw : list string) :
  match analyze_with_lm st qw cw with
  | Ok l => (1 / 2 <= l < 1)%R
  | Err _ => True
  end.
Proof.
  destruct (analyze_with_lm st qw cw) as [l|e] eqn:E; [|exact I].
  split; [exact (analyze_with_lm_ge_half st qw cw l E)
         | exact (proj2 (analyze_with_lm_range st qw cw l E))].
Qed.

(** ** Blank queries have no tokens *)

Lemma lstrip_list_nil (p : ascii -> bool) (l : list ascii) :
  PyStr.lstrip_list p l = [] -> forallb p l = true.
Proof.
  induction l as [|c l IH]; simpl; [reflexivity|].
  destruct (p c); simpl; [exact IH | discriminate].
Qed.

Lemma lstrip_list_head (p : ascii -> bool) (l r : list ascii) (c : ascii) :
  PyStr.lstrip_list p l = c :: r -> p c = false.
Proof.
  induction l as [|d l IH]; simpl; [discriminate|].
  destruct (p d) eqn:Ed; [exact IH|]. intros H; injection H as -> _; exact Ed.
Qed.

Lemma strip_by_empty (p : ascii -> bool) (s : string) :
  PyStr.strip_by p s = "" -> forallb p (PyStr.to_list s) = true.
Proof.
  unfold PyStr.strip_by.
  destruct (PyStr.lstrip_list p (PyStr.to_list s)) as [|c r] eqn:E.
  - intros _; apply lstrip_list_nil, E.
  - simpl rev.
    destruct (PyStr.lstrip_list p (rev r ++ [c])%list) as [|d r'] eqn:E2.
    + apply lstrip_list_nil in E2.
      rewrite forallb_app in E2; apply andb_prop in E2 as [_ E2].
      simpl in E2; rewrite (lstrip_list_head _ _ _ _ E) in E2; discriminate.
    + simpl; destruct (rev r'); simpl; discriminate.
Qed.

Lemma split_go_blank (l : list ascii) :
  forallb PyStr.is_space l = true -> PyStr.split_go l [] = [].
Proof.
  induction l as [|c l IH]; simpl; [reflexivity|].
  destruct (PyStr.is_space c); simpl; [exact IH | discriminate].
Qed.

Lemma tokenize_blank (q : string) :
  is_empty (PyStr.strip_ws q) = true -> tokenize q = [].
Proof.
  intros H.
  assert (Hs : PyStr.strip_ws q = "")
    by (destruct (PyStr.strip_ws q); [reflexivity | discriminate]).
  apply strip_by_empty in Hs.
  unfold tokenize; destruct q as [|c q']; [reflexivity|].
  unfold PyStr.split; rewrite (split_go_blank _ Hs); reflexivity.
Qed.

(** ** Lengths of the heap, the sort and the result of [search] *)

Lemma siftdown_loop_length (fuel : nat) (heap : list entry) (pos : nat)
      (x : entry) :
  length (siftdown_loop fuel heap pos x) = length heap.
Proof.
  revert heap pos; induction fuel as [|f IH]; intros heap pos;
    [apply list_set_length|].
  destruct pos as [|p]; [apply list_set_length|]; simpl.
  destruct (tuple_lt x _); [rewrite IH|]; apply list_set_length.
Qed.

Lemma heappush_length (heap : list entry) (x : entry) :
  length (heappush heap x) = S (length heap).
Proof.
  unfold heappush; rewrite siftdown_loop_length, length_app; simpl; lia.
Qed.

Lemma insert_by_key_length (x : entry) (l : list entry) :
  length (insert_by_key x l) = S (length l).
Proof.
  induction l as [|y l IH]; simpl; [reflexivity|].
  destruct (Rltb (fst x) (fst y)); simpl; [reflexivity | rewrite IH; reflexivity].
Qed.

Lemma sort_by_key_length (l : list entry) : length (sort_by_key l) = length l.
Proof.
  unfold sort_by_key.
  enough (H : forall acc,
             length (fold_left (fun acc x => insert_by_key x acc) l acc)
             = (length l + length acc)%nat) by (rewrite H; simpl; lia).
  induction l as [|x l IH]; intros acc; simpl; [reflexivity|].
  rewrite IH, insert_by_key_length; lia.
Qed.

Lemma map_res_length {A B} (f : A -> result B) (xs : list A) (ys : list B) :
  map_res f xs = Ok ys -> length ys = length xs.
Proof.
  intros H; apply map_res_Forall2, Forall2_length in H; symmetry; exact H.
Qed.

Lemma score_loop_length (st : CommandSearcher) (qw : list string)
      (cands : list nat) (heap h : list entry) :
  score_loop st qw cands heap = Ok h ->
  (forall idx s, In idx cands -> score_candidate st qw idx = Ok s ->
                 (0.3 < s)%R) ->
  length h = (length heap + length cands)%nat.
Proof.
  revert heap; induction cands as [|idx cands IH]; intros heap Hl Hp; simpl in Hl.
  - injection Hl as <-; simpl; lia.
  - destruct (score_candidate st qw idx) as [s|e] eqn:E; simpl in Hl;
      [|discriminate].
    rewrite (Rltb_true _ _ (Hp idx s (or_introl eq_refl) E)) in Hl.
    apply IH in Hl;
      [rewrite Hl, heappush_length; simpl; lia
      | intros i s' Hi Hs'; exact (Hp i s' (or_intror Hi) Hs')].
Qed.

Lemma inter_card_pos (qw cw : list string) (w : string) :
  In w qw -> In w cw -> (0 < inter_card qw cw)%nat.
Proof.
  intros Hq Hc; unfold inter_card.
  assert (Hf : In w (filter (fun w => str_mem w cw) (str_set_of qw))).
  { apply filter_In; split; [apply (proj2 (str_set_of_In _ _)), Hq|].
    apply (proj2 (str_mem_In _ _)), Hc. }
  destruct (filter (fun w => str_mem w cw) (str_set_of qw)); [destruct Hf|].
  simpl; lia.
Qed.

Lemma command_keywords_built random_lm (st0 : CommandSearcher)
      (catalog : list Cmd) :
  command_keywords (build_index random_lm st0 catalog) =
  map (fun cmd => str_set_of (tokenize (search_text cmd))) catalog.
Proof.
  change (command_keywords (build_index random_lm st0 catalog))
    with (snd (build_command_index catalog)).
  apply build_keywords.
Qed.

Lemma find_candidates_built_nth random_lm (st0 : CommandSearcher)
      (catalog : list Cmd) (qw : list string) (idx : nat) :
  In idx (find_candidates (build_index random_lm st0 catalog) qw) ->
  exists cmd w, nth_error catalog idx = Some cmd /\ In w qw /\
                In w (tokenize (search_text cmd)).
Proof.
  intros H; apply find_candidates_In in H as (w & s & Hw & Hl & Hs).
  destruct (proj1 (word_index_built random_lm st0 catalog w idx)
              (ex_intro _ s (conj Hl Hs))) as (cmd & Hc & Hwc).
  exists cmd, w; auto.
Qed.

Lemma score_candidate_built_pass random_lm (st0 : CommandSearcher)
      (catalog : list Cmd) (qw : list string) (idx : nat) (s : R) :
  In idx (find_candidates (build_index random_lm st0 catalog) qw) ->
  score_candidate (build_index random_lm st0 catalog) qw idx = Ok s ->
  (0.3 < s)%R.
Proof.
  intros Hin Hs.
  destruct (find_candidates_built_nth _ _ _ _ _ Hin) as (cmd & w & Hc & Hw & Hwc).
  unfold score_candidate, py_index in Hs.
  rewrite command_keywords_built, nth_error_map, Hc in Hs; cbn [option_map bind] in Hs.
  destruct (analyze_with_lm _ qw _) as [l|e] eqn:El; cbn [bind] in Hs;
    [|discriminate].
  injection Hs as <-.
  pose proof (analyze_with_lm_ge_half _ _ _ _ El) as Hl.
  pose proof (density_range qw (str_set_of (tokenize (search_text cmd)))) as Hd.
  assert (Hcov : (0 < coverage qw (str_set_of (tokenize (search_text cmd))))%R).
  { unfold coverage; apply Rdiv_lt_0_compat; apply lt_0_INR.
    - apply (inter_card_pos _ _ w Hw), (proj2 (str_set_of_In _ _)), Hwc.
    - destruct qw; [destruct Hw | simpl; lia]. }
  unfold combine_score; lra.
Qed.

(** X6: on a searcher built from the catalog it is then searched in, no
    candidate falls under the [0.3] threshold (the language-model part of the
    score is at least [0.5] and the coverage is positive), so [search] returns
    exactly [min(3, #candidates)] records, the candidates being the records
    that share a token with the corrected query. *)
Theorem search_result_length correction WRatio random_lm (st0 : CommandSearcher)
        (catalog : list Cmd) (q : string) :
  let st := build_index random_lm st0 catalog in
  match process_words correction WRatio st (tokenize q),
        search correction WRatio st q catalog with
  | Ok qw, Ok res => length res = Nat.min 3 (length (find_candidates st qw))
  | _, _ => True
  end.
Proof.
  intros st; unfold search.
  destruct (is_empty (PyStr.strip_ws q)) eqn:Eb.
  - rewrite (tokenize_blank q Eb); reflexivity.
  - destruct (process_words correction WRatio st (tokenize q)) as [qw|e] eqn:Ep;
      [|exact I].
    cbn [bind]; destruct qw as [|w qw']; [reflexivity|].
    destruct (score_loop st (w :: qw') (find_candidates st (w :: qw')) [])
      as [h|e] eqn:Es; cbn [bind]; [|exact I].
    destruct (map_res (emit catalog) (firstn 3 (sort_by_key h))) as [res|e] eqn:Em;
      [|exact I].
    rewrite (map_res_length _ _ _ Em), length_firstn, sort_by_key_length.
    rewrite (score_loop_length _ _ _ _ _ Es)
      by (intros idx s Hi Hs; exact (score_candidate_built_pass _ _ _ _ _ _ Hi Hs)).
    reflexivity.
Qed.

(** ** When [search] returns normally *)

Lemma extract_one_Some WRatio (q : string) (choices : list string) :
  choices <> [] -> exists b sb, extract_one WRatio q choices = Some (b, sb).
Proof.
  destruct choices as [|c cs]; [contradiction|]; intros _.
  unfold extract_one; simpl.
  destruct (extract_one_go_best WRatio q c cs) as (b & E & _).
  rewrite E; eauto.
Qed.

Lemma correct_spelling_built_Ok correction WRatio random_lm
      (st0 : CommandSearcher) (catalog : list Cmd) (word : string) :
  build_vocab catalog <> [] ->
  exists r, correct_spelling correction WRatio
              (build_index random_lm st0 catalog) word = Ok r.
Proof.
  intros Hv; unfold correct_spelling.
  destruct (in_vocab _ word); [eauto|]; cbv zeta.
  destruct (extract_one_Some WRatio word
              (all_words (build_index random_lm st0 catalog)) Hv) as (b & sb & E).
  rewrite E.
  destruct (correction _ word) as [c|]; [destruct (_ && _)|]; eauto.
Qed.

Lemma process_words_built_Ok correction WRatio random_lm
      (st0 : CommandSearcher) (catalog : list Cmd) (words : list string) :
  build_vocab catalog <> [] ->
  exists qw, process_words correction WRatio
               (build_index random_lm st0 catalog) words = Ok qw.
Proof.
  intros Hv; induction words as [|word words [qw IH]]; simpl; [eauto|].
  destruct (correct_spelling_built_Ok correction WRatio random_lm st0 catalog
              word Hv) as [r Hr].
  rewrite Hr; cbn [bind]; rewrite IH; cbn [bind]; eauto.
Qed.

Lemma map_res_total_In {A B} (f : A -> result B) (xs : list A) :
  (forall x, In x xs -> exists y, f x = Ok y) -> exists ys, map_res f xs = Ok ys.
Proof.
  induction xs as [|x xs IH]; intros Hf; simpl; [eauto|].
  destruct (Hf x (or_introl eq_refl)) as [y Hy]; rewrite Hy; cbn [bind].
  destruct IH as [ys Hys]; [intros; apply Hf; simpl; auto|].
  rewrite Hys; cbn [bind]; eauto.
Qed.

Lemma score_loop_total (st : CommandSearcher) (qw : list string)
      (cands : list nat) (heap : list entry) :
  (forall idx, In idx cands -> exists s, score_candidate st qw idx = Ok s) ->
  exists h, score_loop st qw cands heap = Ok h.
Proof.
  revert heap; induction cands as [|idx cands IH]; intros heap Hc; simpl; [eauto|].
  destruct (Hc idx (or_introl eq_refl)) as [s Hs]; rewrite Hs; cbn [bind].
  apply IH; intros; apply Hc; simpl; auto.
Qed.

Lemma score_candidate_built_Ok random_lm (st0 : CommandSearcher)
      (catalog : list Cmd) (qw : list string) (idx : nat) :
  (0 < length (embeddings (random_lm (length (build_vocab catalog)))))%nat ->
  (idx < length catalog)%nat ->
  exists s, score_candidate (build_index random_lm st0 catalog) qw idx = Ok s.
Proof.
  intros He Hi; unfold score_candidate, py_index.
  rewrite command_keywords_built, nth_error_map.
  destruct (nth_error catalog idx) as [cmd|] eqn:Ec;
    [|apply nth_error_None in Ec; lia].
  cbn [option_map bind].
  destruct (analyze_with_lm_Ok (build_index random_lm st0 catalog)
              (random_lm (length (build_vocab catalog))) qw
              (str_set_of (tokenize (search_text cmd))) eq_refl He) as [l Hl].
  rewrite Hl; cbn [bind]; eauto.
Qed.

(** X7: [search] on a searcher built from the catalog it is then searched in
    returns normally for every query as soon as the vocabulary is not empty
    and the model built for it has an embedding row: spelling correction then
    always finds a best match, every candidate position addresses a record
    and a keyword set, and the model gathers its rows modulo a non-zero
    length. *)
Theorem search_total correction WRatio random_lm (st0 : CommandSearcher)
        (catalog : list Cmd) (q : string)
        (Hv : build_vocab catalog <> [])
        (He : (0 < length (embeddings
                             (random_lm (length (build_vocab catalog)))))%nat) :
  exists res,
    search correction WRatio (build_index random_lm st0 catalog) q catalog = Ok res.
Proof.
  unfold search; destruct (is_empty (PyStr.strip_ws q)); [eauto|].
  destruct (process_words_built_Ok correction WRatio random_lm st0 catalog
              (tokenize q) Hv) as [qw Hq].
  rewrite Hq; cbn [bind]; destruct qw as [|w qw']; [eauto|].
  set (st := build_index random_lm st0 catalog).
  set (cands := find_candidates st (w :: qw')).
  assert (Hc : forall idx, In idx cands -> (idx < length catalog)%nat).
  { intros idx Hi.
    destruct (find_candidates_built_nth _ _ _ _ _ Hi) as (cmd & _ & Hn & _).
    apply nth_error_Some; rewrite Hn; discriminate. }
  destruct (score_loop_total st (w :: qw') cands [])
    as [h Hh]; [intros idx Hi; apply score_candidate_built_Ok; auto|].
  rewrite Hh; cbn [bind].
  assert (Hf : Forall (fun e => (snd e < length catalog)%nat) h).
  { apply (score_loop_Forall _ _ _ _ _ _ Hh); [constructor|].
    intros idx s Hi _ _; exact (Hc idx Hi). }
  apply map_res_total_In; intros p Hp.
  apply firstn_In_, (proj1 (sort_by_key_In _ _)) in Hp.
  pose proof (proj1 (Forall_forall _ _) Hf p Hp) as Hlt.
  unfold emit, py_index.
  destruct (nth_error catalog (snd p)) eqn:En; [cbn [bind]; eauto|].
  apply nth_error_None in En; cbn beta in Hlt; exfalso; lia.
Qed.

Lemma search_total_witness :
  build_vocab Concrete.default_catalog <> [] /\
  (0 < length (embeddings
                 (Concrete.zero_lm (length (build_vocab Concrete.default_catalog)))))%nat /\
  exists res, search Concrete.no_correction Concrete.zero_ratio Concrete.built
                "ssh key" Concrete.default_catalog = Ok res.
Proof.
  split; [intros H; vm_compute in H; discriminate|].
  split; [apply Nat.ltb_lt; vm_compute; reflexivity|].
  apply (search_total Concrete.no_correction Concrete.zero_ratio Concrete.zero_lm
           (init Concrete.no_words) Concrete.default_catalog "ssh key").
  - intros H; vm_compute in H; discriminate.
  - apply Nat.ltb_lt; vm_compute; reflexivity.
Defined.

(** ** [search] returns each position of the catalog at most once *)

Lemma list_set_app_len {A} (l1 l2 : list A) (a v : A) :
  list_set (l1 ++ a :: l2) (length l1) v = (l1 ++ v :: l2)%list.
Proof. induction l1 as [|y l1 IH]; simpl; [reflexivity | rewrite IH; reflexivity]. Qed.

Lemma siftdown_swap (heap : list entry) (j pos : nat) (x : entry) :
  (j < pos)%nat -> (pos < length heap)%nat ->
  Permutation (list_set (list_set heap pos (nth j heap (0%R, O))) j x)
              (list_set heap pos x).
Proof.
  intros Hj Hp.
  destruct (nth_error heap j) as [a|] eqn:Ea; [|apply nth_error_None in Ea; lia].
  destruct (nth_error_split heap j Ea) as (A & M & -> & HA); subst j.
  rewrite length_app in Hp; simpl in Hp.
  destruct (nth_error M (pos - S (length A))) as [b|] eqn:Eb;
    [|apply nth_error_None in Eb; lia].
  destruct (nth_error_split M _ Eb) as (B & C & -> & HB).
  rewrite nth_middle.
  replace pos with (length (A ++ a :: B)) by (rewrite length_app; simpl; lia).
  rewrite app_comm_cons, app_assoc, !list_set_app_len.
  rewrite <- app_assoc, <- app_comm_cons, list_set_app_len.
  rewrite <- app_assoc, <- app_comm_cons.
  apply Permutation_app_head.
  transitivity (x :: a :: (B ++ C))%list;
    [apply perm_skip; symmetry; apply Permutation_middle|].
  transitivity (a :: x :: (B ++ C))%list; [apply perm_swap|].
  apply perm_skip, Permutation_middle.
Qed.

Lemma siftdown_loop_perm (fuel : nat) (heap : list entry) (pos : nat)
      (x : entry) :
  (pos < length heap)%nat ->
  Permutation (siftdown_loop fuel heap pos x) (list_set heap pos x).
Proof.
  revert heap pos; induction fuel as [|f IH]; intros heap pos Hp; [reflexivity|].
  destruct pos as [|p]; [reflexivity|].
  pose proof (div2_pred_lt (S p) ltac:(lia)) as Hd.
  simpl; simpl in Hd.
  destruct (tuple_lt x _); [|reflexivity].
  etransitivity; [apply IH; rewrite list_set_length; lia|].
  apply siftdown_swap; assumption.
Qed.

Lemma heappush_perm (heap : list entry) (x : entry) :
  Permutation (heappush heap x) (heap ++ [x])%list.
Proof.
  unfold heappush.
  etransitivity; [apply siftdown_loop_perm; rewrite length_app; simpl; lia|].
  rewrite list_set_app_len; reflexivity.
Qed.

Lemma insert_by_key_perm (x : entry) (l : list entry) :
  Permutation (insert_by_key x l) (x :: l).
Proof.
  induction l as [|y l IH]; simpl; [reflexivity|].
  destruct (Rltb (fst x) (fst y)); [reflexivity|].
  etransitivity; [apply perm_skip, IH | apply perm_swap].
Qed.

Lemma sort_by_key_perm (l : list entry) : Permutation (sort_by_key l) l.
Proof.
  unfold sort_by_key.
  enough (H : forall acc,
             Permutation (fold_left (fun acc x => insert_by_key x acc) l acc)
                         (l ++ acc)%list) by (rewrite <- app_nil_r; apply H).
  induction l as [|y l IH]; intros acc; simpl; [reflexivity|].
  etransitivity; [apply IH|].
  etransitivity; [apply Permutation_app_head, insert_by_key_perm|].
  symmetry; apply Permutation_middle.
Qed.

Lemma score_loop_perm (st : CommandSearcher) (qw : list string)
      (cands : list nat) (heap h : list entry) :
  score_loop st qw cands heap = Ok h ->
  Permutation (map snd h)
    (map snd heap ++
     filter (fun idx => match score_candidate st qw idx with
                        | Ok s => Rltb 0.3 s | Err _ => false end) cands)%list.
Proof.
  revert heap; induction cands as [|idx cands IH]; intros heap Hl; simpl in Hl.
  - injection Hl as <-; rewrite app_nil_r; reflexivity.
  - destruct (score_candidate st qw idx) as [s|e] eqn:E; cbn [bind] in Hl;
      [|discriminate].
    apply IH in Hl; cbn [filter]; rewrite E.
    destruct (Rltb 0.3 s); [|exact Hl].
    etransitivity; [exact Hl|].
    etransitivity;
      [apply Permutation_app_tail, Permutation_map, heappush_perm|].
    rewrite map_app, <- app_assoc; reflexivity.
Qed.

Lemma nat_set_add_sorted (n : nat) (s : list nat) :
  StronglySorted lt s -> StronglySorted lt (nat_set_add n s).
Proof.
  induction s as [|m s IH]; intros Hs; simpl.
  - repeat constructor.
  - inversion Hs as [|? ? Hs' Hf]; subst.
    destruct (n =? m) eqn:E1; [exact Hs|].
    destruct (n <? m) eqn:E2.
    + apply Nat.ltb_lt in E2.
      constructor; [exact Hs|]; constructor; [exact E2|].
      eapply Forall_impl; [|exact Hf]; intros y Hy; lia.
    + apply Nat.eqb_neq in E1; apply Nat.ltb_ge in E2.
      constructor; [apply IH, Hs'|].
      apply Forall_forall; intros y Hy.
      apply nat_set_add_In in Hy as [->|Hy]; [lia|].
      exact (proj1 (Forall_forall _ _) Hf y Hy).
Qed.

Lemma nat_set_update_sorted (s xs : list nat) :
  StronglySorted lt s -> StronglySorted lt (nat_set_update s xs).
Proof.
  unfold nat_set_update; revert s; induction xs as [|x xs IH]; intros s Hs;
    simpl; [exact Hs|].
  apply IH, nat_set_add_sorted, Hs.
Qed.

Lemma sorted_lt_NoDup (s : list nat) : StronglySorted lt s -> NoDup s.
Proof.
  induction 1 as [|m s _ IH Hf]; constructor; [|exact IH].
  intros Hm; apply (proj1 (Forall_forall _ _) Hf) in Hm; lia.
Qed.

Lemma find_candidates_NoDup (st : CommandSearcher) (qw : list string) :
  NoDup (find_candidates st qw).
Proof.
  apply sorted_lt_NoDup; unfold find_candidates.
  enough (H : forall acc, StronglySorted lt acc ->
             StronglySorted lt
               (fold_left (fun acc word =>
                  nat_set_update acc (match lookup word (word_index st) with
                                      | Some s => s | None => [] end)) qw acc))
    by (apply H; constructor).
  induction qw as [|w qw IH]; intros acc Hacc; simpl; [exact Hacc|].
  apply IH, nat_set_update_sorted, Hacc.
Qed.

Lemma NoDup_map_firstn {A B} (f : A -> B) (n : nat) (l : list A) :
  NoDup (map f l) -> NoDup (map f (firstn n l)).
Proof.
  rewrite <- (firstn_skipn n l) at 1; rewrite map_app.
  apply NoDup_app_remove_r.
Qed.

Lemma emit_positions (commands : list Cmd) (xs : list entry)
      (ys : list (Cmd * R)) :
  Forall2 (fun x y => emit commands x = Ok y) xs ys ->
  Forall2 (fun i p => nth_error commands i = Some (fst p)) (map snd xs) ys.
Proof.
  induction 1 as [|x y xs ys Hxy _ IH]; simpl; constructor; [|exact IH].
  exact (proj1 (emit_spec _ _ _ Hxy)).
Qed.

(** X8: every record [search] returns is the record at some position of the
    list passed in, and no position is returned twice: the candidate
    positions form a set, and the heap and the sort only permute the scored
    entries. *)
Theorem search_distinct_positions correction WRatio (st : CommandSearcher)
        (q : string) (commands : list Cmd) :
  match search correction WRatio st q commands with
  | Ok res => exists ids, NoDup ids /\
      Forall2 (fun i p => nth_error commands i = Some (fst p)) ids res
  | Err _ => True
  end.
Proof.
  destruct (search correction WRatio st q commands) as [res|e] eqn:E; [|exact I].
  apply search_Ok_inv in E as [->|(qw & h & _ & _ & Hh & Hm)].
  - exists []; split; constructor.
  - exists (map snd (firstn 3 (sort_by_key h))); split.
    + apply NoDup_map_firstn.
      apply (Permutation_NoDup (Permutation_map snd (Permutation_sym (sort_by_key_perm h)))).
      apply (Permutation_NoDup (Permutation_sym (score_loop_perm _ _ _ _ _ Hh))).
      apply NoDup_filter, find_candidates_NoDup.
    + apply emit_positions, map_res_Forall2, Hm.
Qed.

(** ** [_format_command] *)

Lemma to_list_app (a b : string) :
  PyStr.to_list (a ++ b) = (PyStr.to_list a ++ PyStr.to_list b)%list.
Proof. induction a as [|c a IH]; simpl; [reflexivity | rewrite IH; reflexivity]. Qed.

Lemma of_list_app (a b : list ascii) :
  PyStr.of_list (a ++ b) = (PyStr.of_list a ++ PyStr.of_list b)%string.
Proof. induction a as [|c a IH]; simpl; [reflexivity | rewrite IH; reflexivity]. Qed.

Lemma of_to_list (s : string) : PyStr.of_list (PyStr.to_list s) = s.
Proof. induction s as [|c s IH]; simpl; [reflexivity | rewrite IH; reflexivity]. Qed.

Lemma to_of_list (l : list ascii) : PyStr.to_list (PyStr.of_list l) = l.
Proof. induction l as [|c l IH]; simpl; [reflexivity | rewrite IH; reflexivity]. Qed.

Lemma split_sep_go_none (sep : ascii) (l cur : list ascii) :
  ~ In sep l -> PyStrSep.split_sep_go sep l cur = [(rev cur ++ l)%list].
Proof.
  revert cur; induction l as [|c l IH]; intros cur Hl; simpl.
  - rewrite app_nil_r; reflexivity.
  - destruct (Ascii.eqb_spec c sep) as [->|Hc]; [destruct Hl; left; reflexivity|].
    rewrite IH by (intros H; apply Hl; right; exact H).
    simpl; rewrite <- app_assoc; reflexivity.
Qed.

Lemma split_sep_go_at (sep : ascii) (l1 l2 cur : list ascii) :
  ~ In sep l1 ->
  PyStrSep.split_sep_go sep (l1 ++ sep :: l2) cur
  = (rev cur ++ l1)%list :: PyStrSep.split_sep_go sep l2 [].
Proof.
  revert cur; induction l1 as [|c l1 IH]; intros cur Hl; simpl.
  - rewrite Ascii.eqb_refl, app_nil_r; reflexivity.
  - destruct (Ascii.eqb_spec c sep) as [->|Hc]; [destruct Hl; left; reflexivity|].
    rewrite IH by (intros H; apply Hl; right; exact H).
    simpl; rewrite <- app_assoc; reflexivity.
Qed.

Lemma split_sep_go_pieces (sep : ascii) (l cur : list ascii) :
  ~ In sep cur -> Forall (fun x => ~ In sep x) (PyStrSep.split_sep_go sep l cur).
Proof.
  revert cur; induction l as [|c l IH]; intros cur Hc; simpl.
  - constructor; [rewrite <- in_rev; exact Hc | constructor].
  - destruct (Ascii.eqb_spec c sep) as [->|Hne].
    + constructor; [rewrite <- in_rev; exact Hc | apply IH; intros []].
    + apply IH; intros [->|H]; [apply Hne; reflexivity | exact (Hc H)].
Qed.

Lemma split_sep_pieces (sep : ascii) (s : string) :
  Forall (fun x => ~ In sep (PyStr.to_list x)) (PyStrSep.split_sep sep s).
Proof.
  unfold PyStrSep.split_sep; apply Forall_map.
  eapply Forall_impl; [|apply split_sep_go_pieces; intros []].
  intros x Hx; rewrite to_of_list; exact Hx.
Qed.

Lemma split_sep_go_nonempty (sep : ascii) (l cur : list ascii) :
  PyStrSep.split_sep_go sep l cur <> [].
Proof.
  revert cur; induction l as [|c l IH]; intros cur; simpl; [discriminate|].
  destruct (Ascii.eqb c sep); [discriminate | apply IH].
Qed.

Lemma split_sep_nonempty (sep : ascii) (s : string) :
  PyStrSep.split_sep sep s <> [].
Proof.
  unfold PyStrSep.split_sep; intros H; apply map_eq_nil in H.
  exact (split_sep_go_nonempty _ _ _ H).
Qed.

Lemma split_join (sep : ascii) (ls : list string) :
  ls <> [] -> Forall (fun x => ~ In sep (PyStr.to_list x)) ls ->
  PyStrSep.split_sep sep (PyStrSep.join_sep sep ls) = ls.
Proof.
  induction ls as [|x [|y r] IH]; intros Hne Hf; [contradiction| |].
  - inversion Hf; subst; unfold PyStrSep.split_sep; simpl.
    rewrite split_sep_go_none by assumption; simpl; rewrite of_to_list; reflexivity.
  - inversion Hf as [|? ? Hx Hr]; subst.
    change (PyStrSep.join_sep sep (x :: y :: r))
      with (x ++ String sep (PyStrSep.join_sep sep (y :: r)))%string.
    unfold PyStrSep.split_sep in *; rewrite to_list_app; cbn [PyStr.to_list].
    rewrite split_sep_go_at by assumption; cbn [map rev app].
    rewrite of_to_list, IH by (discriminate || assumption); reflexivity.
Qed.

Lemma join_split_go (sep : ascii) (l cur : list ascii) :
  PyStrSep.join_sep sep (map PyStr.of_list (PyStrSep.split_sep_go sep l cur))
  = PyStr.of_list (rev cur ++ l).
Proof.
  revert cur; induction l as [|c l IH]; intros cur; simpl.
  - rewrite app_nil_r; reflexivity.
  - destruct (Ascii.eqb_spec c sep) as [->|Hc].
    + pose proof (split_sep_go_nonempty sep l []) as Hn.
      destruct (PyStrSep.split_sep_go sep l []) as [|p ps] eqn:E; [contradiction|].
      specialize (IH []); rewrite E in IH; simpl in IH |- *.
      rewrite IH, of_list_app; reflexivity.
    + rewrite IH; simpl; rewrite <- app_assoc; reflexivity.
Qed.

Lemma join_split (sep : ascii) (s : string) :
  PyStrSep.join_sep sep (PyStrSep.split_sep sep s) = s.
Proof.
  unfold PyStrSep.split_sep; rewrite join_split_go; simpl; apply of_to_list.
Qed.

Lemma format_lines_tail (i : nat) (lines : list string) :
  format_lines (S i) lines =
  map (fun line => "    " ++ PyStrSep.lstrip line) lines.
Proof.
  revert i; induction lines as [|x r IH]; intros i; simpl; [reflexivity|].
  rewrite IH; reflexivity.
Qed.

Lemma lstrip_list_In (p : ascii -> bool) (l : list ascii) (c : ascii) :
  In c (PyStr.lstrip_list p l) -> In c l.
Proof.
  induction l as [|d l IH]; simpl; [auto|].
  destruct (p d); [intros H; right; apply IH, H | auto].
Qed.

Lemma lstrip_list_idem (p : ascii -> bool) (l : list ascii) :
  PyStr.lstrip_list p (PyStr.lstrip_list p l) = PyStr.lstrip_list p l.
Proof.
  induction l as [|c l IH]; simpl; [reflexivity|].
  destruct (p c) eqn:E; [exact IH | simpl; rewrite E; reflexivity].
Qed.

Lemma indent_no_newline (line : string) :
  ~ In newline (PyStr.to_list line) ->
  ~ In newline (PyStr.to_list ("    " ++ PyStrSep.lstrip line)).
Proof.
  intros H; rewrite to_list_app; unfold PyStrSep.lstrip; rewrite to_of_list.
  intros Hin; apply in_app_or in Hin as [Hin|Hin].
  - simpl in Hin; intuition discriminate.
  - exact (H (lstrip_list_In _ _ _ Hin)).
Qed.

Lemma indent_idem (line : string) :
  ("    " ++ PyStrSep.lstrip ("    " ++ PyStrSep.lstrip line))%string =
  ("    " ++ PyStrSep.lstrip line)%string.
Proof.
  f_equal; unfold PyStrSep.lstrip at 1; rewrite to_list_app; cbn.
  unfold PyStrSep.lstrip; rewrite to_of_list, lstrip_list_idem; reflexivity.
Qed.

Lemma split_format (c : string) :
  PyStrSep.split_sep newline (format_command c) =
  match PyStrSep.split_sep newline c with
  | [] => []
  | first :: rest =>
      first :: map (fun line => "    " ++ PyStrSep.lstrip line) rest
  end.
Proof.
  pose proof (split_sep_pieces newline c) as Hp.
  pose proof (split_sep_nonempty newline c) as Hn.
  unfold format_command; cbv zeta.
  destruct (PyStrSep.split_sep newline c) as [|first rest] eqn:E; [contradiction|].
  destruct (length (first :: rest) =? 1) eqn:L.
  - rewrite E; destruct rest; [reflexivity | discriminate].
  - cbn [format_lines Nat.eqb]; rewrite format_lines_tail.
    apply split_join; [discriminate|].
    inversion Hp as [|? ? Hf Hr]; subst; constructor; [exact Hf|].
    apply Forall_map; eapply Forall_impl; [|exact Hr].
    intros line; apply indent_no_newline.
Qed.

(** X9: a command without a line break is printed as stored:
    [_format_command] returns it unchanged. *)
Theorem format_command_single_line (c : string) :
  ~ In newline (PyStr.to_list c) -> format_command c = c.
Proof.
  intros H; unfold format_command, PyStrSep.split_sep; cbv zeta.
  rewrite split_sep_go_none by exact H; reflexivity.
Qed.

Lemma format_command_single_line_witness :
  ~ In newline (PyStr.to_list "ls -la") /\ format_command "ls -la" = "ls -la".
Proof.
  assert (H : ~ In newline (PyStr.to_list "ls -la"))
    by (cbn; intuition discriminate).
  split; [exact H | exact (format_command_single_line "ls -la" H)].
Defined.

(** X10: [_format_command] keeps the line structure of a command: the result
    has as many lines as the command, the first line unchanged, and every
    later line with its leading whitespace replaced by exactly four spaces. *)
Theorem format_command_lines (c : string) :
  PyStrSep.split_sep newline (format_command c) =
  match PyStrSep.split_sep newline c with
  | [] => []
  | first :: rest =>
      first :: map (fun line => "    " ++ PyStrSep.lstrip line) rest
  end.
Proof. exact (split_format c). Qed.

(** X11: formatting is idempotent: formatting an already formatted command
    changes nothing. *)
Theorem format_command_idem (c : string) :
  format_command (format_command c) = format_command c.
Proof.
  pose proof (split_format c) as Hs.
  pose proof (split_sep_nonempty newline c) as Hn.
  destruct (PyStrSep.split_sep newline c) as [|first rest] eqn:E; [contradiction|].
  unfold format_command at 1; cbv zeta; rewrite Hs.
  destruct rest as [|l rest].
  - reflexivity.
  - cbn [length Nat.eqb map format_lines].
    rewrite format_lines_tail, map_map.
    unfold format_command; cbv zeta; rewrite E.
    cbn [length Nat.eqb format_lines]; rewrite format_lines_tail.
    f_equal; f_equal; simpl; f_equal; [apply indent_idem|].
    apply map_ext; intros x; apply indent_idem.
Qed.

(** ** The [commands] table and the bot *)


















(** ** The tokens of [_tokenize] *)

Lemma length_of_list (l : list ascii) : String.length (PyStr.of_list l) = length l.
Proof. induction l as [|c l IH]; simpl; [reflexivity | rewrite IH; reflexivity]. Qed.

Lemma length_to_list (s : string) : length (PyStr.to_list s) = String.length s.
Proof. induction s as [|c s IH]; simpl; [reflexivity | rewrite IH; reflexivity]. Qed.

Lemma strip_by_In (p : ascii -> bool) (s : string) (c : ascii) :
  In c (PyStr.to_list (PyStr.strip_by p s)) -> In c (PyStr.to_list s).
Proof.
  unfold PyStr.strip_by; rewrite to_of_list, <- in_rev.
  intros H; apply lstrip_list_In in H; rewrite <- in_rev in H.
  exact (lstrip_list_In _ _ _ H).
Qed.

Lemma split_go_no_space (l cur : list ascii) :
  Forall (fun c => PyStr.is_space c = false) cur ->
  Forall (Forall (fun c => PyStr.is_space c = false)) (PyStr.split_go l cur).
Proof.
  revert cur; induction l as [|c l IH]; intros cur Hc; simpl.
  - destruct cur; repeat constructor; apply Forall_rev; constructor; inversion Hc; auto.
  - destruct (PyStr.is_space c) eqn:E.
    + destruct cur as [|d cur]; [apply IH; constructor|].
      constructor; [apply Forall_rev, Hc | apply IH; constructor].
    + apply IH; constructor; assumption.
Qed.

Lemma lower_char_spec (c : ascii) :
  (PyStr.is_space c = false -> PyStr.is_space (PyStr.lower_char c) = false) /\
  ~ (65 <= nat_of_ascii (PyStr.lower_char c) <= 90).
Proof.
  pose proof (nat_ascii_bounded c) as Hb.
  unfold PyStr.lower_char.
  destruct ((65 <=? nat_of_ascii c) && (nat_of_ascii c <=? 90)) eqn:E.
  - apply andb_prop in E as [E1 E2]; apply Nat.leb_le in E1, E2.
    rewrite nat_ascii_embedding by lia.
    unfold PyStr.is_space; rewrite nat_ascii_embedding by lia; split.
    + intros _; apply orb_false_iff; split; apply andb_false_iff;
        right; apply Nat.leb_gt; lia.
    + lia.
  - split; [auto|]. intros [H1 H2].
    apply Nat.leb_le in H1, H2; rewrite H1, H2 in E; discriminate.
Qed.

(** X15: the tokens [_tokenize] produces are pairwise distinct, longer than
    two characters, and contain neither whitespace nor upper-case letters. *)
Theorem tokenize_tokens (text : string) :
  NoDup (tokenize text) /\
  Forall (fun t => (2 < String.length t)%nat /\
                   Forall (fun c => PyStr.is_space c = false /\
                                    ~ (65 <= nat_of_ascii c <= 90))
                          (PyStr.to_list t))
         (tokenize text).
Proof.
  unfold tokenize; destruct text as [|ch rest]; [split; constructor|].
  split; [apply str_set_of_NoDup|].
  apply Forall_forall; intros t Ht.
  apply (proj1 (str_set_of_In _ _)), in_map_iff in Ht as (w & <- & Hw).
  apply filter_In in Hw as [Hw Hlen]; apply Nat.ltb_lt in Hlen.
  unfold PyStr.lower; split.
  - rewrite length_of_list, length_map, length_to_list; exact Hlen.
  - rewrite to_of_list; apply Forall_map, Forall_forall; intros c Hc.
    destruct (lower_char_spec c) as [Hs Hu]; split; [apply Hs|exact Hu].
    apply strip_by_In in Hc.
    unfold PyStr.split in Hw; apply in_map_iff in Hw as (l & <- & Hl).
    rewrite to_of_list in Hc.
    pose proof (split_go_no_space (PyStr.to_list (String ch rest)) [] (Forall_nil _)) as Hf.
    exact (proj1 (Forall_forall _ _) (proj1 (Forall_forall _ _) Hf l Hl) c Hc).
Qed.

(** ** The word ids handed to the model *)

(** X16: on a built searcher, [_get_word_indices] yields exactly the
    vocabulary positions of the words of its argument that are in the
    vocabulary, so every id is below the vocabulary size the model was built
    for. *)
Theorem get_word_indices_built random_lm (st0 : CommandSearcher)
        (catalog : list Cmd) (ws : list string) (i : nat) :
  In i (get_word_indices (build_index random_lm st0 catalog) ws) <->
  exists w, In w ws /\ nth_error (build_vocab catalog) i = Some w.
Proof.
  unfold get_word_indices; rewrite in_flat_map.
  change (word_to_idx (build_index random_lm st0 catalog))
    with (combine (build_vocab catalog) (seq 0 (length (build_vocab catalog)))).
  split.
  - intros (w & Hw & Hi); exists w; split; [exact Hw|].
    destruct (lookup w _) as [j|] eqn:E; [|destruct Hi].
    destruct Hi as [<-|[]].
    apply lookup_combine_seq in E as [_ E]; [|apply build_vocab_NoDup].
    rewrite Nat.sub_0_r in E; exact E.
  - intros (w & Hw & Hi); exists w; split; [exact Hw|].
    rewrite (proj2 (lookup_combine_seq _ 0 i w (build_vocab_NoDup catalog)))
      by (rewrite Nat.sub_0_r; split; [lia | exact Hi]).
    left; reflexivity.
Qed.

(** ** The [/add] line of [run] *)

Lemma lstrip_list_suffix (p : ascii -> bool) (l : list ascii) :
  exists pre, l = (pre ++ PyStr.lstrip_list p l)%list.
Proof.
  induction l as [|c l [pre IH]]; simpl; [exists []; reflexivity|].
  destruct (p c); [exists (c :: pre); simpl; f_equal; exact IH | exists []; reflexivity].
Qed.

Lemma strip_by_idem (p : ascii -> bool) (s : string) :
  PyStr.strip_by p (PyStr.strip_by p s) = PyStr.strip_by p s.
Proof.
  unfold PyStr.strip_by at 1 2; rewrite to_of_list.
  remember (PyStr.lstrip_list p (PyStr.to_list s)) as A eqn:EA.
  remember (PyStr.lstrip_list p (rev A)) as B eqn:EB.
  assert (H : PyStr.lstrip_list p (rev B) = rev B).
  { destruct (rev B) as [|x r] eqn:ER; [reflexivity|].
    assert (HB : B = (rev r ++ [x])%list)
      by (rewrite <- (rev_involutive B), ER; reflexivity).
    destruct (lstrip_list_suffix p (rev A)) as [pre Hpre]; rewrite <- EB, HB in Hpre.
    destruct A as [|a A'].
    - simpl in Hpre; apply (f_equal (@length ascii)) in Hpre.
      rewrite !length_app in Hpre; simpl in Hpre; lia.
    - simpl in Hpre; rewrite app_assoc in Hpre.
      apply app_inj_tail in Hpre as [_ <-].
      symmetry in EA; simpl; rewrite (lstrip_list_head _ _ _ _ EA); reflexivity. }
  rewrite H, rev_involutive, EB, lstrip_list_idem.
  unfold PyStr.strip_by; rewrite <- EA; reflexivity.
Qed.

Lemma strip_ws_no_bar (s : string) :
  ~ In "|"%char (PyStr.to_list s) -> ~ In "|"%char (PyStr.to_list (PyStr.strip_ws s)).
Proof. intros H Hin; exact (H (strip_by_In _ _ _ Hin)). Qed.

Lemma add_part (pieces : list string) (k : nat) :
  Forall (fun x => ~ In "|"%char (PyStr.to_list x)) pieces ->
  let x := nth k (map PyStr.strip_ws pieces) "" in
  PyStr.strip_ws x = x /\ ~ In "|"%char (PyStr.to_list x).
Proof.
  intros Hf x; subst x.
  destruct (nth_in_or_default k (map PyStr.strip_ws pieces) "") as [Hin | ->];
    [|split; [reflexivity | intros []]].
  apply in_map_iff in Hin as (y & Hy & Hin); rewrite <- Hy; split.
  - apply strip_by_idem.
  - apply strip_ws_no_bar, (proj1 (Forall_forall _ _) Hf y Hin).
Qed.

(** X17: the intent, command and description [run] passes to [add_command]
    for an [/add] line carry no surrounding whitespace and no [|]. *)
Theorem dispatch_add_fields (line i c desc : string) :
  dispatch line = AddCommand i c desc ->
  PyStr.strip_ws i = i /\ PyStr.strip_ws c = c /\ PyStr.strip_ws desc = desc /\
  ~ In "|"%char (PyStr.to_list i) /\ ~ In "|"%char (PyStr.to_list c) /\
  ~ In "|"%char (PyStr.to_list desc).
Proof.
  unfold dispatch; cbv zeta.
  destruct (is_empty _); [discriminate|].
  destruct (String.eqb _ "/exit"); [discriminate|].
  destruct (String.eqb _ "/help"); [discriminate|].
  destruct (String.prefix "/add" _).
  2: { destruct (String.prefix "/delete" _); discriminate. }
  pose proof (split_sep_pieces "|"%char
                (PyStrSep.drop 4 (PyStr.strip_ws line))) as Hf.
  destruct (2 <=? _); [|discriminate].
  intros H; injection H as <- <- <-.
  destruct (add_part _ 0 Hf) as [Hi Hi'].
  destruct (add_part _ 1 Hf) as [Hc Hc'].
  destruct (add_part _ 2 Hf) as [Hd Hd'].
  destruct (2 <? _); [tauto|].
  repeat split; try assumption; intros [].
Qed.

Lemma dispatch_add_fields_witness :
  dispatch "  /add list files |  ls -la " = AddCommand "list files" "ls -la" "" /\
  PyStr.strip_ws "ls -la" = "ls -la".
Proof.
  assert (H : dispatch "  /add list files |  ls -la "
              = AddCommand "list files" "ls -la" "") by (vm_compute; reflexivity).
  split; [exact H|].
  exact (proj1 (proj2 (dispatch_add_fields _ _ _ _ H))).
Defined.
